(** * ryegen: naming and generation core

    A shallow embedding of the orchestration code of [ryegen] (file
    [main.go]): the module-path comparator, the unique module namer of
    [recursivelyGetRepo], the binding loops and the generic-interface
    closure of [genBindings], and the binding-name conflict resolution of
    [TryRun].

    Go strings are byte strings: they are modelled by [string] (a list of
    8-bit [ascii] characters), [len] by [String.length], the built-in
    comparison of strings by [String.compare] (byte-wise lexicographic).
    Go's [int] is modelled by [Z]; Go maps by [gmap], sets
    ([map[string]struct{}]) by [gset]. *)

From Stdlib Require Import ZArith Ascii String List Bool Lia.
From stdpp Require Import base option list gmap strings sorting.

Local Open Scope Z_scope.

(** ** The Go standard library functions the code calls *)

Module strings.

(** [strings.Split(s, sep)] for a one-byte separator: the pieces between
    the separators, [n+1] of them when [sep] occurs [n] times; the empty
    string gives one empty piece. *)
Fixpoint Split (s : string) (sep : ascii) : list string :=
  match s with
  | EmptyString => [EmptyString]
  | String c s' =>
      if Ascii.eqb c sep then EmptyString :: Split s' sep
      else match Split s' sep with
           | [] => [String c EmptyString]
           | piece :: pieces => String c piece :: pieces
           end
  end.

(** [strings.SplitN(s, sep, 2)]: cut at the first separator only. *)
Fixpoint SplitN2 (s : string) (sep : ascii) : list string :=
  match s with
  | EmptyString => [EmptyString]
  | String c s' =>
      if Ascii.eqb c sep then [EmptyString; s']
      else match SplitN2 s' sep with
           | [] => [String c EmptyString]
           | piece :: pieces => String c piece :: pieces
           end
  end.

(** [strings.Join(elems, sep)]. *)
Definition Join (elems : list string) (sep : string) : string :=
  String.concat sep elems.

(** [strings.HasPrefix(s, prefix)]. *)
Definition HasPrefix (s pfx : string) : bool := String.prefix pfx s.

(** [strings.Contains(s, substr)] for a one-byte [substr]. *)
Fixpoint Contains (s : string) (c : ascii) : bool :=
  match s with
  | EmptyString => false
  | String c' s' => Ascii.eqb c' c || Contains s' c
  end.

(** [strings.Compare(a, b)]. *)
Definition Compare (a b : string) : Z :=
  match String.compare a b with
  | Lt => -1
  | Eq => 0
  | Gt => 1
  end.

End strings.

Module strconv.

(** Bounds of Go's [int] on a 64-bit platform. *)
Definition MaxInt : Z := 2 ^ 63 - 1.
Definition MinInt : Z := - 2 ^ 63.

Definition digit (c : ascii) : option Z :=
  let n := Z.of_N (N_of_ascii c) in
  if (48 <=? n) && (n <=? 57) then Some (n - 48) else None.

Fixpoint digits (acc : Z) (s : string) : option Z :=
  match s with
  | EmptyString => Some acc
  | String c s' =>
      match digit c with
      | Some d => digits (10 * acc + d) s'
      | None => None
      end
  end.

(** [strconv.Atoi]: an optional sign, then one or more decimal digits;
    [None] stands for the error result (syntax or range). *)
Definition Atoi (s : string) : option Z :=
  let '(neg, body) :=
    match s with
    | String "+"%char r => (false, r)
    | String "-"%char r => (true, r)
    | _ => (false, s)
    end in
  match body with
  | EmptyString => None
  | _ =>
      match digits 0 body with
      | Some n =>
          let v := if neg then - n else n in
          if (MinInt <=? v) && (v <=? MaxInt) then Some v else None
      | None => None
      end
  end.

End strconv.

(** ** Module Orderer *)

(** [modulePathElementVersion] parses strings like "v2", "v3" etc. *)
Definition modulePathElementVersion (s : string) : Z :=
  match s with
  | String "v"%char rest =>
      match strconv.Atoi rest with
      | Some ver => if 1 <=? ver then ver else -1
      | None => -1
      end
  | _ => -1
  end.

(** [removeModulePathVersionElements] removes all "v2", "v3" etc. parts. *)
Definition removeModulePathVersionElements (s : string) : string :=
  let sp := strings.Split s "/" in
  let spOut := filter (λ v, modulePathElementVersion v = -1) sp in
  strings.Join spOut "/".

(** [aSp[len(aSp)-1]] of a slice that [strings.Split] returned. *)
Definition lastElem (sp : list string) : string := List.last sp EmptyString.

(** The first block of the comparator, on the version-stripped paths: [Some]
    of the result when the standard-library rule decides. A path is a
    standard-library path when its first element contains no dot. *)
Definition isStd (sp : list string) : bool :=
  match sp with
  | first :: _ => negb (strings.Contains first ".")
  | [] => false
  end.

Definition stdRule (a b : string) : option Z :=
  let aSp := strings.SplitN2 a "/" in
  let bSp := strings.SplitN2 b "/" in
  if (0 <? length aSp)%nat && (0 <? length bSp)%nat then
    let aStd := isStd aSp in
    let bStd := isStd bSp in
    if aStd && negb bStd then Some (-1)
    else if negb aStd && bStd then Some 1
    else None
  else None.

(** The second block: paths under [preferPkg] first. *)
Definition preferRule (preferPkg aOrig bOrig : string) : option Z :=
  if negb (String.eqb preferPkg "") then
    let aPfx := strings.HasPrefix aOrig preferPkg in
    let bPfx := strings.HasPrefix bOrig preferPkg in
    if aPfx && negb bPfx then Some (-1)
    else if negb aPfx && bPfx then Some 1
    else None
  else None.

(** The last block: the version numbers of the trailing elements. *)
Definition versionRule (aOrig bOrig : string) : option Z :=
  let aSp := strings.Split aOrig "/" in
  let bSp := strings.Split bOrig "/" in
  if (1 <=? length aSp)%nat && (1 <=? length bSp)%nat then
    let aVer := modulePathElementVersion (lastElem aSp) in
    let bVer := modulePathElementVersion (lastElem bSp) in
    if (length aSp =? length bSp)%nat && (bVer <? aVer) then Some (-1)
    else if (length aSp =? length bSp + 1)%nat && (1 <? aVer) then Some (-1)
    else if (length aSp =? length bSp)%nat && (aVer <? bVer) then Some 1
    else if (length aSp + 1 =? length bSp)%nat && (1 <? bVer) then Some 1
    else None
  else None.

(** The closure returned by [makeCompareModulePaths(preferPkg)]: negative
    when [aOrig] sorts before [bOrig]. *)
Definition compareModulePaths (preferPkg : string) (aOrig bOrig : string) : Z :=
  let a := removeModulePathVersionElements aOrig in
  let b := removeModulePathVersionElements bOrig in
  match stdRule a b with
  | Some r => r
  | None =>
      match preferRule preferPkg aOrig bOrig with
      | Some r => r
      | None =>
          if (String.length a <? String.length b)%nat then -1
          else if (String.length b <? String.length a)%nat then 1
          else if String.ltb b a then -1
          else if String.ltb a b then 1
          else
            match versionRule aOrig bOrig with
            | Some r => r
            | None => strings.Compare aOrig bOrig
            end
      end
  end.

(** [a] sorts before [b]: the comparator is negative. *)
Definition sortsBefore (preferPkg a b : string) : Prop :=
  compareModulePaths preferPkg a b < 0.

Global Instance sortsBefore_dec preferPkg : RelDecision (sortsBefore preferPkg).
Proof. intros a b. unfold sortsBefore. apply _. Defined.

(** [slices.SortFunc] on a slice of at most twelve elements is the insertion
    sort [insertionSortCmpFunc] of package [slices]:
    [for i := a+1; i < b; i++ { for j := i; j > a && cmp(data[j], data[j-1]) < 0; j-- { swap } }].
    [sink] is the inner loop; its list argument is [data[a:i]], last element
    first. *)
Fixpoint sink {A : Type} (cmp : A → A → Z) (x : A) (before : list A) : list A :=
  match before with
  | [] => [x]
  | y :: before' =>
      if cmp x y <? 0 then y :: sink cmp x before' else x :: before
  end.

Definition insertionSortCmpFunc {A : Type} (cmp : A → A → Z) (data : list A) : list A :=
  rev (fold_left (λ sorted x, sink cmp x sorted) data []).

(** ** Results of fallible code: a value, the returned [error] (its
    message), or a run-time panic (index out of range, nil dereference). *)

Inductive Result (A : Type) : Type :=
  | Ok (a : A)
  | Err (msg : string)
  | Panic.
Arguments Ok {A} a.
Arguments Err {A} msg.
Arguments Panic {A}.

(** ** Unique Module Namer (the second half of [recursivelyGetRepo]) *)

Section UniqueModuleNamer.

(** [strcase.ToSnake] of the library [github.com/iancoleman/strcase]. *)
Variable ToSnake : string → string.

(** The [for] loop that extends [nameComponents]. [remaining] is
    [modPathElems], last element first: the post statement
    [modPathElems = modPathElems[:len(modPathElems)-1]] drops its head. *)
Fixpoint nameLoop (existingModuleNames : gset string)
    (modPath : string) (remaining : list string)
    (nameComponents : list string) {struct remaining} : Result string :=
  if decide (strings.Join nameComponents "_" ∈ existingModuleNames) then
    match remaining with
    | [] => Err ("cannot create unique module name for " +:+ modPath)
    | lastElem :: remaining' =>
        let lastElemSnakeCase := ToSnake lastElem in
        if decide (lastElemSnakeCase ∈ nameComponents) then
          nameLoop existingModuleNames modPath remaining' nameComponents
        else
          nameLoop existingModuleNames modPath remaining'
            (lastElemSnakeCase :: nameComponents)
    end
  else Ok (strings.Join nameComponents "_").

(** The body of the loop over [moduleNameKeys] up to [name := ...].
    [modDefaultNames[modPath]] is the empty string for a missing key. *)
Definition uniqueModuleName (existingModuleNames : gset string)
    (modDefaultNames : gmap string string) (modPath : string) : Result string :=
  let modPathElems := strings.Split (removeModulePathVersionElements modPath) "/" in
  let nameComponents := [default EmptyString (modDefaultNames !! modPath)] in
  nameLoop existingModuleNames modPath (rev modPathElems) nameComponents.

(** The loop over [moduleNameKeys], threading [modUniqueNames] and
    [existingModuleNames]. *)
Fixpoint assignNames (modDefaultNames : gmap string string)
    (moduleNameKeys : list string)
    (modUniqueNames : gmap string string)
    (existingModuleNames : gset string) : Result (gmap string string) :=
  match moduleNameKeys with
  | [] => Ok modUniqueNames
  | modPath :: keys =>
      match uniqueModuleName existingModuleNames modDefaultNames modPath with
      | Err e => Err e
      | Panic => Panic
      | Ok name =>
          assignNames modDefaultNames keys
            (<[modPath := name]> modUniqueNames)
            ({[name]} ∪ existingModuleNames)
      end
  end.

(** [recursivelyGetRepo] from [modUniqueNames["C"] = "C"] on. [ranged] is
    the order in which [for k := range modDefaultNames] yields the keys,
    which Go leaves unspecified: any enumeration of the keys of the map.
    [slices.SortFunc] is the insertion sort it runs on slices of at most
    twelve elements; where the comparator is a strict total order on the
    keys, every sorting algorithm returns the same slice. *)
Definition uniqueModuleNames (pkg : string)
    (modDefaultNames : gmap string string) (ranged : list string)
    : Result (gmap string string) :=
  let modUniqueNames := <["C" := "C"]> (∅ : gmap string string) in
  let moduleNameKeys := insertionSortCmpFunc (compareModulePaths pkg) ranged in
  assignNames modDefaultNames moduleNameKeys modUniqueNames ∅.

(** The candidates in the words of the specification: starting from the
    declared name alone, the path elements are taken from the last one
    backwards, and each one whose snake-case form is not yet among the
    components is put in front. [prependings] lists the component lists
    this produces after the first. *)
Fixpoint prependings (segments : list string) (components : list string)
    : list (list string) :=
  match segments with
  | [] => []
  | segment :: segments' =>
      if decide (ToSnake segment ∈ components)
      then prependings segments' components
      else (ToSnake segment :: components)
           :: prependings segments' (ToSnake segment :: components)
  end.

Definition candidateComponents (declared : string) (modPath : string)
    : list (list string) :=
  [declared] ::
  prependings (rev (strings.Split (removeModulePathVersionElements modPath) "/"))
              [declared].

Definition firstFree (existingModuleNames : gset string)
    (candidates : list (list string)) : option string :=
  find (λ name, bool_decide (name ∉ existingModuleNames))
       (map (λ components, strings.Join components "_") candidates).

End UniqueModuleNamer.

(** An enumeration of the keys of a map, as a [range] loop may yield them. *)
Definition rangeOrder {V : Type} (m : gmap string V) (ranged : list string) : Prop :=
  NoDup ranged ∧ ∀ k, k ∈ ranged ↔ is_Some (m !! k).

(** ** Binding Namer (the conflict-resolution block of [TryRun]) *)

Module binder.

(** The fields of [binder.BindingFunc] that the naming code reads;
    [UniqueName] is the value of the method [UniqueName(ctx)],
    [ModulePath] is [File.ModulePath]. *)
Record BindingFunc : Type := mkBindingFunc {
  UniqueName : string;
  ModulePath : string;
  Category : string;
}.

End binder.

Module slices.

(** [slices.Index(s, v)]: the first index of [v], or -1. *)
Fixpoint Index (s : list string) (v : string) : Z :=
  match s with
  | [] => -1
  | x :: s' =>
      if String.eqb x v then 0
      else let r := Index s' v in if r =? -1 then -1 else r + 1
  end.

(** [slices.Contains(s, v)]. *)
Definition Contains (s : list string) (v : string) : bool :=
  existsb (String.eqb v) s.

End slices.

(** The loop state: the slices [nameCandidates], the map [topNames], the flag
    [foundConflict] and the warnings appended to [warn]. The candidate
    slices of different bindings do not share storage, so the in-place
    update of [nameCandidates[i][0]] is the replacement of the head. *)
Record NamerState : Type := mkNamerState {
  nameCandidates : list (list string);
  topNames : gmap string nat;
  foundConflict : bool;
  warn : list string;
}.

(** *** A measure that every pop and every renaming decreases

    Popping a candidate makes the number of candidates smaller. Renaming
    binding [i] makes its top candidate longer, after it was as long as the
    top candidate of an earlier binding: the number of earlier bindings
    whose top candidate is at least as long goes down for [i] and stays for
    the bindings before [i]. The measure reads these numbers as the digits
    of a number, the digit of the first binding first, below the number of
    candidates. *)
Definition headLen (l : list string) : nat :=
  match l with
  | [] => 0%nat
  | name :: _ => String.length name
  end.

Definition rankAt (hs : list nat) (i : nat) : nat :=
  length (filter (λ h, (default 0%nat (hs !! i) ≤ h)%nat) (take i hs)).

Fixpoint positional (base : nat) (digits : list nat) : nat :=
  match digits with
  | [] => 0%nat
  | d :: ds => (d * base ^ length ds + positional base ds)%nat
  end.

Definition ranks (cands : list (list string)) : list nat :=
  map (rankAt (map headLen cands)) (seq 0 (length cands)).

Definition conflictMeasure (cands : list (list string)) : nat :=
  (sum_list (map length cands) * S (length cands) ^ length cands
   + positional (S (length cands)) (ranks cands))%nat.

Section BindingNamer.

(** [cfg.NoPrefix]. *)
Variable NoPrefix : list string.
Variable sortedBindings : list binder.BindingFunc.

(** [prio := slices.Index(cfg.NoPrefix, bind.File.ModulePath)], with
    [math.MaxInt] for -1. *)
Definition namePrio (bind : binder.BindingFunc) : Z :=
  let prio := slices.Index NoPrefix (binder.ModulePath bind) in
  if prio =? -1 then strconv.MaxInt else prio.

Definition namePrios : list Z := map namePrio sortedBindings.

Definition conflictWarning (bind other : binder.BindingFunc) (topName : string) : string :=
  "unable to resolve naming conflict between " +:+ binder.UniqueName bind
    +:+ " and " +:+ binder.UniqueName other
    +:+ ", renaming " +:+ topName +:+ " to " +:+ (topName +:+ "-1").

(** The body of [for i, bind := range sortedBindings]. *)
Definition visit (i : nat) (bind : binder.BindingFunc) (st : NamerState)
    : Result NamerState :=
  match nameCandidates st !! i with
  | None => Panic
  | Some [] =>
      Err ("unable to resolve naming conflict for " +:+ binder.UniqueName bind)
  | Some (topName :: rest) =>
      match topNames st !! topName with
      | Some otherI =>
          match namePrios !! otherI, namePrios !! i with
          | Some prioOther, Some prioI =>
              if prioOther <? prioI then
                Ok {| nameCandidates := <[i := rest]> (nameCandidates st);
                      topNames := <[topName := otherI]> (topNames st);
                      foundConflict := true;
                      warn := warn st |}
              else if prioI <? prioOther then
                match nameCandidates st !! otherI with
                | Some (_ :: restOther) =>
                    Ok {| nameCandidates := <[otherI := restOther]> (nameCandidates st);
                          topNames := <[topName := i]> (topNames st);
                          foundConflict := true;
                          warn := warn st |}
                | _ => Panic
                end
              else
                match sortedBindings !! otherI with
                | Some other =>
                    let renamed := topName +:+ "-1" in
                    Ok {| nameCandidates := <[i := renamed :: rest]> (nameCandidates st);
                          topNames := <[renamed := i]> (topNames st);
                          foundConflict := true;
                          warn := warn st ++ [conflictWarning bind other topName] |}
                | None => Panic
                end
          | _, _ => Panic
          end
      | None =>
          Ok {| nameCandidates := nameCandidates st;
                topNames := <[topName := i]> (topNames st);
                foundConflict := foundConflict st;
                warn := warn st |}
      end
  end.

(** One pass of the inner [for] loop, from index [i] on. *)
Fixpoint scan (i : nat) (binds : list binder.BindingFunc) (st : NamerState)
    : Result NamerState :=
  match binds with
  | [] => Ok st
  | bind :: binds' =>
      match visit i bind st with
      | Ok st' => scan (S i) binds' st'
      | Err e => Err e
      | Panic => Panic
      end
  end.

(** The state at the top of a pass: [foundConflict := false] and a fresh
    [topNames]. *)
Definition passStart (cands : list (list string)) (warnings : list string) : NamerState :=
  {| nameCandidates := cands; topNames := ∅; foundConflict := false; warn := warnings |}.

(** The outer [for { ... }]: passes until one finds no conflict. The loop
    has no bound in the source; [fuel] bounds the number of passes and
    [None] says it was used up. *)
Fixpoint resolveConflicts (fuel : nat) (cands : list (list string))
    (warnings : list string) : option (Result (list (list string) * list string)) :=
  match fuel with
  | O => None
  | S fuel' =>
      match scan 0 sortedBindings (passStart cands warnings) with
      | Ok st =>
          if foundConflict st
          then resolveConflicts fuel' (nameCandidates st) (warn st)
          else Some (Ok (nameCandidates st, warn st))
      | Err e => Some (Err e)
      | Panic => Some Panic
      end
  end.

(** [bindingNames[i] = nameCandidates[i][0]]. *)
Fixpoint firstNames (cands : list (list string)) : Result (list string) :=
  match cands with
  | [] => Ok []
  | [] :: _ => Panic
  | (name :: _) :: cands' =>
      match firstNames cands' with
      | Ok names => Ok (name :: names)
      | Err e => Err e
      | Panic => Panic
      end
  end.

(** [CutNew] is [cfg.CutNew], [Renames] is [bindingList.Renames] (a
    missing key reads as the empty string); [RyeifiedNameCandidates] is the
    method of [binder.BindingFunc]. *)
Variable CutNew : bool.
Variable Renames : gmap string string.
Variable RyeifiedNameCandidates :
  binder.BindingFunc → bool → bool → string → list string.

Definition initialCandidates : list (list string) :=
  map (λ bind,
         RyeifiedNameCandidates bind
           (negb (namePrio bind =? strconv.MaxInt)) CutNew
           (default EmptyString (Renames !! binder.UniqueName bind)))
      sortedBindings.

(** The whole block: the final [bindingNames] and the extended [warn]. *)
Definition bindingNames (fuel : nat) (warnings : list string)
    : option (Result (list string * list string)) :=
  match resolveConflicts fuel initialCandidates warnings with
  | None => None
  | Some (Ok (cands, warnings')) =>
      match firstNames cands with
      | Ok names => Some (Ok (names, warnings'))
      | Err e => Some (Err e)
      | Panic => Some Panic
      end
  | Some (Err e) => Some (Err e)
  | Some Panic => Some Panic
  end.

(** The states the loop goes through, each with the index about to be
    visited (the length of [sortedBindings] at the end of a pass). *)
Fixpoint scanTrace (i : nat) (binds : list binder.BindingFunc) (st : NamerState)
    : list (nat * NamerState) :=
  (i, st) ::
  match binds with
  | [] => []
  | bind :: binds' =>
      match visit i bind st with
      | Ok st' => scanTrace (S i) binds' st'
      | _ => []
      end
  end.

Fixpoint resolveTrace (fuel : nat) (cands : list (list string))
    (warnings : list string) : list (nat * NamerState) :=
  match fuel with
  | O => []
  | S fuel' =>
      scanTrace 0 sortedBindings (passStart cands warnings) ++
      match scan 0 sortedBindings (passStart cands warnings) with
      | Ok st =>
          if foundConflict st
          then resolveTrace fuel' (nameCandidates st) (warn st)
          else []
      | _ => []
      end
  end.

(** Two bindings collide in [cands] when their current top candidates are
    the same name. *)
Definition collide (cands : list (list string)) (c j : nat) : bool :=
  match cands !! c, cands !! j with
  | Some (n :: _), Some (m :: _) => String.eqb n m
  | _, _ => false
  end.

(** Binding [c] has a strictly lower priority number than every other
    binding it collides with in [cands]. *)
Definition outranksPeers (c : nat) (cands : list (list string)) : bool :=
  forallb
    (λ j, (j =? c)%nat || negb (collide cands c j) ||
          match namePrios !! c, namePrios !! j with
          | Some prioC, Some prioJ => prioC <? prioJ
          | _, _ => false
          end)
    (seq 0 (length cands)).

(** [c] outranks its peers in every state of a trace. *)
Definition alwaysOutranks (c : nat) (trace : list (nat * NamerState)) : bool :=
  forallb (λ p, outranksPeers c (nameCandidates p.2)) trace.

(** What [topNames] holds when index [i] is about to be visited: every entry
    points to an earlier binding whose current top candidate is the key. *)
Definition topInv (i : nat) (st : NamerState) : Prop :=
  ∀ name j, topNames st !! name = Some j →
    (j < i)%nat ∧ ∃ rest, nameCandidates st !! j = Some (name :: rest).

(** As long as the pass has found no conflict, every earlier binding is in
    [topNames] under its top candidate. *)
Definition cleanInv (i : nat) (st : NamerState) : Prop :=
  foundConflict st = false →
  ∀ j, (j < i)%nat →
    ∃ name rest, nameCandidates st !! j = Some (name :: rest) ∧
                 topNames st !! name = Some j.

End BindingNamer.

(** ** The intermediate representation and the binder, as [genBindings] uses them *)

Module ir.

(** The file an identifier was found in; only its [ModulePath] is read. *)
Record SourceFile : Type := mkSourceFile { ModulePath : string }.

Module Ident.
Record t : Type := mk { Name : string; File : option SourceFile }.
End Ident.

Module Func.
Record t : Type := mk { File : SourceFile; Recv : option Ident.t }.
End Func.

Module Interface.
Record t : Type := mk { Name : Ident.t; Funcs : list Func.t }.
End Interface.

Module StructField.
Record t : Type := mk { Name : Ident.t }.
End StructField.

Module Struct.
Record t : Type := mk { Name : Ident.t; Fields : list StructField.t }.
End Struct.

Module Value.
Record t : Type := mk { Name : Ident.t }.
End Value.

(** [ir.IR]: the symbol tables, keyed by name. *)
Record IR : Type := mkIR {
  Interfaces : gmap string Interface.t;
  Funcs : gmap string Func.t;
  Structs : gmap string Struct.t;
  Values : gmap string Value.t;
}.

End ir.

(** [binder.Dependencies]: the imports and the generic interfaces that need
    an implementation, which the generators add to. *)
Record Dependencies : Type := mkDependencies {
  Imports : gset string;
  GenericInterfaceImpls : gmap string ir.Interface.t;
}.

(** [binder.NewDependencies()]. *)
Definition NewDependencies : Dependencies :=
  {| Imports := ∅; GenericInterfaceImpls := ∅ |}.

(** The keys of a map in ascending order ([slices.Sort]), and
    [sortedMapAll]: the entries of the map in the order of their keys. *)
Definition sortedKeys {V : Type} (m : gmap string V) : list string :=
  merge_sort String.le (elements (dom m)).

Definition sortedMapAll {V : Type} (m : gmap string V) : list (string * V) :=
  omap (λ k, pair k <$> m !! k) (sortedKeys m).

(** [strings.NewReplacer(old, new).Replace(s)] for one pair with a non-empty
    [old]: the occurrences of [old] are replaced from left to right, without
    overlap. [skip] counts the bytes of a replaced occurrence still to drop. *)
Fixpoint replaceFrom (old new : string) (skip : nat) (s : string) : string :=
  match s with
  | EmptyString => EmptyString
  | String c s' =>
      match skip with
      | S skip' => replaceFrom old new skip' s'
      | O =>
          if String.prefix old s
          then new +:+ replaceFrom old new (String.length old - 1) s'
          else String c (replaceFrom old new 0 s')
      end
  end.

Definition Replace (old new s : string) : string := replaceFrom old new 0 s.

(** The state of [genBindings] in its loops over the symbols. *)
Record GenState : Type := mkGenState {
  bindings : list binder.BindingFunc;
  resErr : list string;
  deps : Dependencies;
}.

(** A symbol a binding is generated for, one constructor per loop of
    [genBindings]. *)
Inductive Symbol : Type :=
  | InterfaceMethod (fn : ir.Func.t)
  | FreeFunc (fn : ir.Func.t)
  | FieldAccessor (struc : ir.Struct.t) (f : ir.StructField.t) (setter : bool)
  | PackageValue (value : ir.Value.t)
  | StructConstructor (struc : ir.Struct.t).

Section GenBindings.

(** [ir.IdentIsInternal(ctx.ModNames, _)], [ir.ModulePathIsInternal(ctx.ModNames, _)]
    and the method [String] of [ir.Func]. *)
Variable IdentIsInternal : ir.Ident.t → bool.
Variable ModulePathIsInternal : string → bool.
Variable Func_String : ir.Func.t → string.

(** The generators of package [binder]; each may add to the dependencies it
    is given, and returns a binding or an error. *)
Variable GenerateBinding :
  Dependencies → ir.Func.t → Dependencies * Result binder.BindingFunc.
Variable GenerateGetterOrSetter :
  Dependencies → ir.StructField.t → ir.Ident.t → bool →
  Dependencies * Result binder.BindingFunc.
Variable GenerateValue :
  Dependencies → ir.Value.t → Dependencies * Result binder.BindingFunc.
Variable GenerateNewStruct :
  Dependencies → ir.Ident.t → Dependencies * Result binder.BindingFunc.
Variable GenerateGenericInterfaceImpl :
  Dependencies → ir.Interface.t → Dependencies * Result string.

Variable targetPkgs : list string.

(** The two [continue] tests at the top of the loops over identifiers:
    [id.File == nil || ir.IdentIsInternal(ctx.ModNames, id)], then
    [!slices.Contains(targetPkgs, id.File.ModulePath)]. *)
Definition skipIdent (id : ir.Ident.t) : bool :=
  match ir.Ident.File id with
  | None => true
  | Some file =>
      IdentIsInternal id || negb (slices.Contains targetPkgs (ir.ModulePath file))
  end.

(** The [continue] tests of the loop over [ctx.IR.Funcs]. *)
Definition skipFunc (fn : ir.Func.t) : bool :=
  (ModulePathIsInternal (ir.ModulePath (ir.Func.File fn)) ||
   match ir.Func.Recv fn with
   | Some recv => IdentIsInternal recv
   | None => false
   end) ||
  negb (slices.Contains targetPkgs (ir.ModulePath (ir.Func.File fn))).

(** What every loop does with the result of a generator: append the binding,
    or append the error, tagged with the symbol, to [resErr] and go on. *)
Definition collect (tag : string)
    (r : Dependencies * Result binder.BindingFunc) (st : GenState) : Result GenState :=
  match r with
  | (deps', Ok bind) =>
      Ok {| bindings := bindings st ++ [bind]; resErr := resErr st; deps := deps' |}
  | (deps', Err err) =>
      Ok {| bindings := bindings st;
            resErr := resErr st ++ [tag +:+ ": " +:+ err];
            deps := deps' |}
  | (_, Panic) => Panic
  end.

(** The last loop appends the binding only if no binding with the same
    [UniqueName] is there already. *)
Definition collectNew (tag : string)
    (r : Dependencies * Result binder.BindingFunc) (st : GenState) : Result GenState :=
  match r with
  | (deps', Ok bind) =>
      if existsb (λ b, String.eqb (binder.UniqueName b) (binder.UniqueName bind))
                 (bindings st)
      then Ok {| bindings := bindings st; resErr := resErr st; deps := deps' |}
      else Ok {| bindings := bindings st ++ [bind]; resErr := resErr st; deps := deps' |}
  | (deps', Err err) =>
      Ok {| bindings := bindings st;
            resErr := resErr st ++ [tag +:+ ": " +:+ err];
            deps := deps' |}
  | (_, Panic) => Panic
  end.

(** A [for ... range] loop whose body may panic. *)
Fixpoint forEach {A : Type} (body : A → GenState → Result GenState)
    (l : list A) (st : GenState) : Result GenState :=
  match l with
  | [] => Ok st
  | x :: l' =>
      match body x st with
      | Ok st' => forEach body l' st'
      | Err e => Err e
      | Panic => Panic
      end
  end.

Definition accessorTag (struc : ir.Struct.t) (f : ir.StructField.t) (setter : bool) : string :=
  ir.Ident.Name (ir.Struct.Name struc) +:+ "//" +:+
  ir.Ident.Name (ir.StructField.Name f) +:+ (if setter then "!" else "?").

Definition bindInterfaces (IR : ir.IR) : GenState → Result GenState :=
  forEach (λ '(_, iface) st,
    if skipIdent (ir.Interface.Name iface) then Ok st
    else forEach (λ fn st,
           collect (Func_String fn) (GenerateBinding (deps st) fn) st)
         (ir.Interface.Funcs iface) st)
  (sortedMapAll (ir.Interfaces IR)).

Definition bindFuncs (IR : ir.IR) : GenState → Result GenState :=
  forEach (λ '(_, fn) st,
    if skipFunc fn then Ok st
    else collect (Func_String fn) (GenerateBinding (deps st) fn) st)
  (sortedMapAll (ir.Funcs IR)).

Definition bindAccessors (IR : ir.IR) : GenState → Result GenState :=
  forEach (λ '(_, struc) st,
    if skipIdent (ir.Struct.Name struc) then Ok st
    else forEach (λ f st,
           forEach (λ setter st,
             collect (accessorTag struc f setter)
               (GenerateGetterOrSetter (deps st) f (ir.Struct.Name struc) setter) st)
           [false; true] st)
         (ir.Struct.Fields struc) st)
  (sortedMapAll (ir.Structs IR)).

Definition bindValues (IR : ir.IR) : GenState → Result GenState :=
  forEach (λ '(_, value) st,
    if skipIdent (ir.Value.Name value) then Ok st
    else collect (ir.Ident.Name (ir.Value.Name value))
           (GenerateValue (deps st) value) st)
  (sortedMapAll (ir.Values IR)).

Definition bindConstructors (IR : ir.IR) : GenState → Result GenState :=
  forEach (λ '(_, struc) st,
    if skipIdent (ir.Struct.Name struc) then Ok st
    else collectNew (ir.Ident.Name (ir.Struct.Name struc))
           (GenerateNewStruct (deps st) (ir.Struct.Name struc)) st)
  (sortedMapAll (ir.Structs IR)).

Definition andThen {A B : Type} (r : Result A) (k : A → Result B) : Result B :=
  match r with
  | Ok a => k a
  | Err e => Err e
  | Panic => Panic
  end.

(** The five loops of [genBindings], from [deps = binder.NewDependencies()]
    to the loop over the struct constructors. *)
Definition bindSymbols (IR : ir.IR) : Result GenState :=
  andThen (bindInterfaces IR {| bindings := []; resErr := []; deps := NewDependencies |})
    (λ st, andThen (bindFuncs IR st)
    (λ st, andThen (bindAccessors IR st)
    (λ st, andThen (bindValues IR st)
    (λ st, bindConstructors IR st)))).

(** The symbols the loops call a generator for, in the order of the calls. *)
Definition eligibleSymbols (IR : ir.IR) : list Symbol :=
  flat_map (λ '(_, iface),
      if skipIdent (ir.Interface.Name iface) then []
      else map InterfaceMethod (ir.Interface.Funcs iface))
    (sortedMapAll (ir.Interfaces IR)) ++
  flat_map (λ '(_, fn), if skipFunc fn then [] else [FreeFunc fn])
    (sortedMapAll (ir.Funcs IR)) ++
  flat_map (λ '(_, struc),
      if skipIdent (ir.Struct.Name struc) then []
      else flat_map (λ f, [FieldAccessor struc f false; FieldAccessor struc f true])
             (ir.Struct.Fields struc))
    (sortedMapAll (ir.Structs IR)) ++
  flat_map (λ '(_, value),
      if skipIdent (ir.Value.Name value) then [] else [PackageValue value])
    (sortedMapAll (ir.Values IR)) ++
  flat_map (λ '(_, struc),
      if skipIdent (ir.Struct.Name struc) then [] else [StructConstructor struc])
    (sortedMapAll (ir.Structs IR)).

(** The generator call a loop makes for a symbol, and the tag it puts in
    front of the error. *)
Definition synthesize (d : Dependencies) (sym : Symbol)
    : Dependencies * Result binder.BindingFunc :=
  match sym with
  | InterfaceMethod fn => GenerateBinding d fn
  | FreeFunc fn => GenerateBinding d fn
  | FieldAccessor struc f setter =>
      GenerateGetterOrSetter d f (ir.Struct.Name struc) setter
  | PackageValue value => GenerateValue d value
  | StructConstructor struc => GenerateNewStruct d (ir.Struct.Name struc)
  end.

Definition symbolTag (sym : Symbol) : string :=
  match sym with
  | InterfaceMethod fn => Func_String fn
  | FreeFunc fn => Func_String fn
  | FieldAccessor struc f setter => accessorTag struc f setter
  | PackageValue value => ir.Ident.Name (ir.Value.Name value)
  | StructConstructor struc => ir.Ident.Name (ir.Struct.Name struc)
  end.

Definition isConstructor (sym : Symbol) : bool :=
  match sym with
  | StructConstructor _ => true
  | _ => false
  end.

(** One generator call and the bookkeeping of its loop. *)
Definition bindSymbol (sym : Symbol) (st : GenState) : Result GenState :=
  (if isConstructor sym then collectNew else collect)
    (symbolTag sym) (synthesize (deps st) sym) st.

(** [sym] has a binding in [bs]: the binding the generator returns for it,
    or, for a struct constructor that was left out, a binding with the same
    unique name. *)
Definition covered (sym : Symbol) (bs : list binder.BindingFunc) : Prop :=
  ∃ d d' bind,
    synthesize d sym = (d', Ok bind) ∧
    (bind ∈ bs ∨
     (isConstructor sym = true ∧
      ∃ b, b ∈ bs ∧ binder.UniqueName b = binder.UniqueName bind)).

(** *** Generic-Implementation Closure *)

(** The state of the closure loop: the dependencies, the map
    [genericIfaceImpls], the flag [addedImpl], and (not in the source) the
    keys [GenerateGenericInterfaceImpl] was called for, oldest first. *)
Record ClosureState : Type := mkClosureState {
  closureDeps : Dependencies;
  genericIfaceImpls : gmap string string;
  addedImpl : bool;
  generatedFor : list string;
}.

(** One pass over [sortedMapAll(deps.GenericInterfaceImpls)]. [names] are
    the keys as they were when the pass started; the value of a key is read
    from the map when the key is reached, and a key that is gone by then
    reads as a nil interface, which the body dereferences. *)
Fixpoint scanImpls (names : list string) (st : ClosureState) : Result ClosureState :=
  match names with
  | [] => Ok st
  | name :: names' =>
      match genericIfaceImpls st !! name with
      | Some _ => scanImpls names' st
      | None =>
          match GenericInterfaceImpls (closureDeps st) !! name with
          | None => Panic
          | Some iface =>
              match GenerateGenericInterfaceImpl (closureDeps st) iface with
              | (deps', Ok ifaceImpl) =>
                  scanImpls names'
                    {| closureDeps := deps';
                       genericIfaceImpls :=
                         <[name := Replace "((RYEGEN:FUNCNAME))"
                                     ("context to " +:+
                                      ir.Ident.Name (ir.Interface.Name iface))
                                     ifaceImpl]>
                           (genericIfaceImpls st);
                       addedImpl := true;
                       generatedFor := generatedFor st ++ [name] |}
              | (_, Err err) => Err ("generate generic interface impl: " +:+ err)
              | (_, Panic) => Panic
              end
          end
      end
  end.

(** The top of a pass: [addedImpl := false]. *)
Definition passReset (st : ClosureState) : ClosureState :=
  {| closureDeps := closureDeps st;
     genericIfaceImpls := genericIfaceImpls st;
     addedImpl := false;
     generatedFor := generatedFor st |}.

Definition onePass (st : ClosureState) : Result ClosureState :=
  scanImpls (sortedKeys (GenericInterfaceImpls (closureDeps st))) (passReset st).

(** The [for { ... }] around the passes, which ends with the first pass that
    adds nothing. [fuel] bounds the number of passes. *)
Fixpoint closeImpls (fuel : nat) (st : ClosureState) : option (Result ClosureState) :=
  match fuel with
  | O => None
  | S fuel' =>
      match onePass st with
      | Ok st' => if addedImpl st' then closeImpls fuel' st' else Some (Ok st')
      | Err e => Some (Err e)
      | Panic => Some Panic
      end
  end.

Definition closureStart (d : Dependencies) : ClosureState :=
  {| closureDeps := d; genericIfaceImpls := ∅; addedImpl := false; generatedFor := [] |}.

(** [genBindings]: the bindings, the generated implementations (by key), the
    dependencies and the non-fatal errors; [Err] is the fatal error of the
    closure. *)
Definition genBindings (fuel : nat) (IR : ir.IR)
    : option (Result (list binder.BindingFunc * gmap string string *
                      Dependencies * list string)) :=
  match bindSymbols IR with
  | Ok st =>
      match closeImpls fuel (closureStart (deps st)) with
      | Some (Ok cst) =>
          Some (Ok (bindings st, genericIfaceImpls cst, closureDeps cst, resErr st))
      | Some (Err e) => Some (Err e)
      | Some Panic => Some Panic
      | None => None
      end
  | Err e => Some (Err e)
  | Panic => Some Panic
  end.

(** What holds of the state of the closure loop, for a set [universe] of
    keys that the generator stays in: the implemented keys are required
    keys, the required keys are in [universe], and [generatedFor] lists the
    implemented keys without repetition. *)
Definition closureInv (universe : gset string) (st : ClosureState) : Prop :=
  dom (genericIfaceImpls st) ⊆ dom (GenericInterfaceImpls (closureDeps st)) ∧
  dom (GenericInterfaceImpls (closureDeps st)) ⊆ universe ∧
  NoDup (generatedFor st) ∧
  ∀ k, k ∈ generatedFor st ↔ k ∈ dom (genericIfaceImpls st).

End GenBindings.

(** ** Inputs used in the examples *)

(** A package that declares the name [C]. *)
Definition cwrapNames : gmap string string := {[ "example.com/cwrap" := "C" ]}.

(** The package that is bound, two major versions of a module it requires,
    and a package in a directory [v3] of the second. *)
Definition libNames : gmap string string :=
  <["example.com/app" := "app"]>
    (<["example.com/lib/v2" := "lib"]>
       (<["example.com/lib" := "lib"]>
          (<["example.com/lib/v2/v3" := "v3"]> ∅))).

Definition libKeys : list string :=
  ["example.com/app"; "example.com/lib/v2"; "example.com/lib"; "example.com/lib/v2/v3"].

Definition audioPath : string := "example.com/app/resources/audio".

(** Two functions [Print], one of "fmt" and one of "example.com/app", in the
    order of their unique names; "fmt" comes first in [cfg.NoPrefix]. *)
Definition printBindings : list binder.BindingFunc :=
  [ binder.mkBindingFunc "example.com/app.Print" "example.com/app" "func";
    binder.mkBindingFunc "fmt.Print" "fmt" "func" ].

Definition printNoPrefix : list string := ["fmt"; "example.com/app"].

Definition printCandidates (bind : binder.BindingFunc) (noPrefix cutNew : bool)
    (rename : string) : list string :=
  if String.eqb (binder.ModulePath bind) "fmt"
  then ["print"; "fmt-print"]
  else ["print"; "app-print"].

(** Two functions [Open] of packages that are not in [cfg.NoPrefix]. *)
Definition openBindings : list binder.BindingFunc :=
  [ binder.mkBindingFunc "example.com/a.Open" "example.com/a" "func";
    binder.mkBindingFunc "example.com/b.Open" "example.com/b" "func" ].

(** The state in which the second of them is visited. *)
Definition openSecondVisit : NamerState :=
  {| nameCandidates := [["open"]; ["open"; "b-open"]];
     topNames := {[ "open" := 0%nat ]};
     foundConflict := false;
     warn := [] |}.

(** Two generic interfaces that require each other: generating the
    implementation of either adds the other to the dependencies. *)
Definition ifaceA : ir.Interface.t :=
  ir.Interface.mk (ir.Ident.mk "A" None) [].
Definition ifaceB : ir.Interface.t :=
  ir.Interface.mk (ir.Ident.mk "B" None) [].

Definition mutualGenerator (d : Dependencies) (iface : ir.Interface.t)
    : Dependencies * Result string :=
  let required :=
    if String.eqb (ir.Ident.Name (ir.Interface.Name iface)) "A"
    then ("B", ifaceB) else ("A", ifaceA) in
  ({| Imports := Imports d;
      GenericInterfaceImpls := <[required.1 := required.2]> (GenericInterfaceImpls d) |},
   Ok ("func ((RYEGEN:FUNCNAME))")).

Definition depsA : Dependencies :=
  {| Imports := ∅; GenericInterfaceImpls := {[ "A" := ifaceA ]} |}.

(** A package with a function [F], a method [M] of [T] that the generator
    cannot bind, a struct [T] with a field [X], and a value [V]. *)
Definition demoFile : ir.SourceFile := ir.mkSourceFile "example.com/m".
Definition demoIdent (name : string) : ir.Ident.t := ir.Ident.mk name (Some demoFile).
Definition demoFunc : ir.Func.t := ir.Func.mk demoFile None.
Definition demoMethod : ir.Func.t := ir.Func.mk demoFile (Some (demoIdent "T")).
Definition demoStruct : ir.Struct.t :=
  ir.Struct.mk (demoIdent "T") [ir.StructField.mk (demoIdent "X")].
Definition demoValue : ir.Value.t := ir.Value.mk (demoIdent "V").

Definition demoIR : ir.IR :=
  {| ir.Interfaces := ∅;
     ir.Funcs := <["F" := demoFunc]> (<["T.M" := demoMethod]> ∅);
     ir.Structs := {[ "T" := demoStruct ]};
     ir.Values := {[ "V" := demoValue ]} |}.

Definition demoFuncString (fn : ir.Func.t) : string :=
  match ir.Func.Recv fn with
  | Some recv => ir.Ident.Name recv +:+ ".M"
  | None => "F"
  end.

Definition demoBinding (name : string) : binder.BindingFunc :=
  binder.mkBindingFunc name "example.com/m" "demo".

Definition demoGenerateBinding (d : Dependencies) (fn : ir.Func.t)
    : Dependencies * Result binder.BindingFunc :=
  match ir.Func.Recv fn with
  | Some _ => (d, Err "unsupported receiver")
  | None => (d, Ok (demoBinding (demoFuncString fn)))
  end.

Definition demoGenerateGetterOrSetter (d : Dependencies) (f : ir.StructField.t)
    (structName : ir.Ident.t) (setter : bool)
    : Dependencies * Result binder.BindingFunc :=
  (d, Ok (demoBinding (ir.Ident.Name structName +:+ "//" +:+
                       ir.Ident.Name (ir.StructField.Name f) +:+
                       (if setter then "!" else "?")))).

Definition demoGenerateValue (d : Dependencies) (value : ir.Value.t)
    : Dependencies * Result binder.BindingFunc :=
  (d, Ok (demoBinding (ir.Ident.Name (ir.Value.Name value)))).

Definition demoGenerateNewStruct (d : Dependencies) (structName : ir.Ident.t)
    : Dependencies * Result binder.BindingFunc :=
  (d, Ok (demoBinding ("New" +:+ ir.Ident.Name structName))).

(** * Properties *)

(** ** Module Orderer *)

Example Split_ex : strings.Split "example.com/lib/v2" "/" = ["example.com"; "lib"; "v2"].
Proof. reflexivity. Qed.

Example Split_empty_ex : strings.Split "" "/" = [""].
Proof. reflexivity. Qed.

Example strip_ex : removeModulePathVersionElements "example.com/lib/v2" = "example.com/lib".
Proof. reflexivity. Qed.

Example version_ex :
  map modulePathElementVersion ["v2"; "v1"; "v0"; "v"; "lib"; "v+3"; "v2a"; "v99999999999999999999"]
  = [2; 1; -1; -1; -1; 3; -1; -1].
Proof. reflexivity. Qed.

Example replace_ex : Replace "((X))" "f" "a ((X)) b ((X))((X)" = "a f b f((X)".
Proof. reflexivity. Qed.

Lemma Split_nonempty s sep : strings.Split s sep ≠ [].
Proof.
  destruct s as [|c s]; simpl; [done|].
  destruct (Ascii.eqb c sep); [done|].
  by destruct (strings.Split s sep).
Qed.

Lemma Split_length_pos s sep : (1 ≤ length (strings.Split s sep))%nat.
Proof.
  pose proof (Split_nonempty s sep).
  destruct (strings.Split s sep); simpl; [done | lia].
Qed.

Lemma string_compare_refl s : String.compare s s = Eq.
Proof.
  induction s as [|c s IH]; simpl; [done|].
  unfold Ascii.compare. by rewrite N.compare_refl.
Qed.

Lemma string_ltb_irrefl s : String.ltb s s = false.
Proof. unfold String.ltb. by rewrite string_compare_refl. Qed.

Lemma string_ltb_gt a b : String.ltb b a = true → String.ltb a b = false.
Proof.
  unfold String.ltb. rewrite (String.compare_antisym a b).
  by destruct (String.compare b a).
Qed.

Lemma string_ltb_total a b : a ≠ b → String.ltb a b = true ∨ String.ltb b a = true.
Proof.
  intros Hne. unfold String.ltb. rewrite (String.compare_antisym b a).
  destruct (String.compare a b) eqn:E; simpl; auto.
  by apply String.compare_eq_iff in E.
Qed.

Lemma stdRule_sym a b : stdRule a b = None → stdRule b a = None.
Proof.
  unfold stdRule.
  destruct (0 <? length (strings.SplitN2 a "/"))%nat,
           (0 <? length (strings.SplitN2 b "/"))%nat; simpl; try done.
  by destruct (isStd (strings.SplitN2 a "/")), (isStd (strings.SplitN2 b "/")).
Qed.

Lemma preferRule_sym p a b : preferRule p a b = None → preferRule p b a = None.
Proof.
  unfold preferRule. destruct (negb (String.eqb p "")); [|done].
  by destruct (strings.HasPrefix a p), (strings.HasPrefix b p).
Qed.

(** When the first two rules tie and the stripped paths have the same
    length, the comparison of the stripped strings decides, the larger
    string first. *)
Lemma compare_by_stripped_string p a b :
  stdRule (removeModulePathVersionElements a) (removeModulePathVersionElements b) = None →
  preferRule p a b = None →
  String.length (removeModulePathVersionElements a)
    = String.length (removeModulePathVersionElements b) →
  String.ltb (removeModulePathVersionElements b) (removeModulePathVersionElements a) = true →
  compareModulePaths p a b = -1 ∧ compareModulePaths p b a = 1.
Proof.
  intros Hstd Hpre Hlen Hlt.
  unfold compareModulePaths; cbv zeta.
  rewrite Hstd, (stdRule_sym _ _ Hstd), Hpre, (preferRule_sym _ _ _ Hpre), Hlen.
  rewrite Nat.ltb_irrefl, Hlt, (string_ltb_gt _ _ Hlt). done.
Qed.

(** C9. Two module paths on which the standard-library rule, the
    preferred-package rule and the length rule tie, and whose
    version-stripped paths differ: the path with the lexicographically
    larger stripped string sorts first, whichever argument it is. *)
Theorem compare_equal_length_descending (preferPkg a b : string) :
  stdRule (removeModulePathVersionElements a) (removeModulePathVersionElements b) = None →
  preferRule preferPkg a b = None →
  String.length (removeModulePathVersionElements a)
    = String.length (removeModulePathVersionElements b) →
  removeModulePathVersionElements a ≠ removeModulePathVersionElements b →
  (String.compare (removeModulePathVersionElements a)
                  (removeModulePathVersionElements b) = Gt ∧
   compareModulePaths preferPkg a b = -1 ∧ compareModulePaths preferPkg b a = 1)
  ∨
  (String.compare (removeModulePathVersionElements a)
                  (removeModulePathVersionElements b) = Lt ∧
   compareModulePaths preferPkg a b = 1 ∧ compareModulePaths preferPkg b a = -1).
Proof.
  intros Hstd Hpre Hlen Hne.
  destruct (string_ltb_total _ _ Hne) as [Hlt|Hlt].
  - right. split.
    + unfold String.ltb in Hlt.
      by destruct (String.compare (removeModulePathVersionElements a)
                                  (removeModulePathVersionElements b)).
    + apply and_comm, compare_by_stripped_string;
        auto using stdRule_sym, preferRule_sym.
  - left. split.
    + unfold String.ltb in Hlt. rewrite String.compare_antisym.
      by destruct (String.compare (removeModulePathVersionElements b)
                                  (removeModulePathVersionElements a)).
    + by apply compare_by_stripped_string.
Qed.

Lemma compare_equal_length_descending_witness :
  (String.compare (removeModulePathVersionElements "example.com/zeta/v2")
                  (removeModulePathVersionElements "example.com/beta") = Gt ∧
   compareModulePaths "example.com" "example.com/zeta/v2" "example.com/beta" = -1 ∧
   compareModulePaths "example.com" "example.com/beta" "example.com/zeta/v2" = 1)
  ∨
  (String.compare (removeModulePathVersionElements "example.com/zeta/v2")
                  (removeModulePathVersionElements "example.com/beta") = Lt ∧
   compareModulePaths "example.com" "example.com/zeta/v2" "example.com/beta" = 1 ∧
   compareModulePaths "example.com" "example.com/beta" "example.com/zeta/v2" = -1).
Proof.
  apply (compare_equal_length_descending
           "example.com" "example.com/zeta/v2" "example.com/beta");
    [reflexivity | reflexivity | reflexivity | vm_compute; discriminate].
Defined.

(** The version rule decides when one path has one more element than the
    other and the last element of the longer one is a version above 1. *)
Lemma versionRule_longer a b :
  length (strings.Split a "/") = S (length (strings.Split b "/")) →
  1 < modulePathElementVersion (lastElem (strings.Split a "/")) →
  versionRule a b = Some (-1) ∧ versionRule b a = Some 1.
Proof.
  intros Hlen Hver. unfold versionRule; cbv zeta.
  pose proof (Split_length_pos a "/") as Ha.
  pose proof (Split_length_pos b "/") as Hb.
  set (la := length (strings.Split a "/")) in *.
  set (lb := length (strings.Split b "/")) in *.
  destruct (Nat.leb_spec 1 la); [|lia].
  destruct (Nat.leb_spec 1 lb); [|lia].
  apply Z.ltb_lt in Hver.
  split; simpl.
  - destruct (Nat.eqb_spec la lb); [lia|]. simpl.
    destruct (Nat.eqb_spec la (lb + 1)); [|lia]. by rewrite Hver.
  - destruct (Nat.eqb_spec lb la); [lia|]. simpl.
    destruct (Nat.eqb_spec lb (la + 1)); [lia|]. simpl.
    destruct (Nat.eqb_spec (lb + 1) la); [|lia]. by rewrite Hver.
Qed.

Lemma prefix_trans p a b :
  String.prefix p a = true → String.prefix a b = true → String.prefix p b = true.
Proof.
  revert a b. induction p as [|c p IH]; intros a b.
  - by destruct b.
  - destruct a as [|c1 a]; simpl; [done|].
    destruct b as [|c2 b]; simpl.
    + by destruct (ascii_dec c c1).
    + destruct (ascii_dec c c1) as [->|]; [|done].
      destruct (ascii_dec c1 c2) as [->|]; [|done].
      intros. destruct (ascii_dec c2 c2); [|done]. eauto.
Qed.

(** C10. The comparator puts "example.com/lib/v2" before "example.com/lib"
    for every preferred package; and in general, when the rules before the
    version rule tie (so that the stripped paths are the same string), a path
    with exactly one more element than the other, whose last element is a
    version above 1, sorts before the other. *)
Theorem versioned_path_sorts_first :
  (∀ preferPkg,
     compareModulePaths preferPkg "example.com/lib/v2" "example.com/lib" = -1 ∧
     compareModulePaths preferPkg "example.com/lib" "example.com/lib/v2" = 1) ∧
  (∀ preferPkg a b,
     stdRule (removeModulePathVersionElements a) (removeModulePathVersionElements b) = None →
     preferRule preferPkg a b = None →
     removeModulePathVersionElements a = removeModulePathVersionElements b →
     length (strings.Split a "/") = S (length (strings.Split b "/")) →
     1 < modulePathElementVersion (lastElem (strings.Split a "/")) →
     compareModulePaths preferPkg a b = -1 ∧ compareModulePaths preferPkg b a = 1).
Proof.
  assert (Hgen : ∀ preferPkg a b,
     stdRule (removeModulePathVersionElements a) (removeModulePathVersionElements b) = None →
     preferRule preferPkg a b = None →
     removeModulePathVersionElements a = removeModulePathVersionElements b →
     length (strings.Split a "/") = S (length (strings.Split b "/")) →
     1 < modulePathElementVersion (lastElem (strings.Split a "/")) →
     compareModulePaths preferPkg a b = -1 ∧ compareModulePaths preferPkg b a = 1).
  { intros p a b Hstd Hpre Heq Hlen Hver.
    destruct (versionRule_longer a b Hlen Hver) as [Hab Hba].
    unfold compareModulePaths; cbv zeta.
    rewrite (stdRule_sym _ _ Hstd), Hstd, Hpre, (preferRule_sym _ _ _ Hpre).
    rewrite Heq, Nat.ltb_irrefl, string_ltb_irrefl, Hab, Hba. done. }
  split; [|exact Hgen].
  intros p.
  destruct (preferRule p "example.com/lib/v2" "example.com/lib") as [r|] eqn:Hpre.
  - (* the preferred-package rule decides: only the longer path can be the
       one under [p] *)
    unfold preferRule in Hpre.
    unfold compareModulePaths, preferRule; cbv zeta.
    replace (stdRule (removeModulePathVersionElements "example.com/lib/v2")
                     (removeModulePathVersionElements "example.com/lib"))
      with (@None Z) by reflexivity.
    replace (stdRule (removeModulePathVersionElements "example.com/lib")
                     (removeModulePathVersionElements "example.com/lib/v2"))
      with (@None Z) by reflexivity.
    destruct (negb (String.eqb p "")); [|done].
    destruct (strings.HasPrefix "example.com/lib" p) eqn:Hb.
    + assert (strings.HasPrefix "example.com/lib/v2" p = true) as Ha.
      { unfold strings.HasPrefix in *.
        apply (prefix_trans p "example.com/lib"); [done | reflexivity]. }
      rewrite Ha in Hpre. done.
    + by destruct (strings.HasPrefix "example.com/lib/v2" p).
  - apply Hgen; [reflexivity | done | reflexivity | reflexivity | reflexivity].
Qed.

Lemma versioned_path_sorts_first_witness :
  compareModulePaths "example.com/lib" "example.com/lib/v3" "example.com/lib" = -1 ∧
  compareModulePaths "example.com/lib" "example.com/lib" "example.com/lib/v3" = 1.
Proof.
  apply (proj2 versioned_path_sorts_first
           "example.com/lib" "example.com/lib/v3" "example.com/lib");
    reflexivity.
Defined.

(** ** Unique Module Namer *)

Section UniqueModuleNamerProperties.

Variable ToSnake : string → string.

Lemma nameLoop_free ex mp rem comps :
  strings.Join comps "_" ∉ ex →
  nameLoop ToSnake ex mp rem comps = Ok (strings.Join comps "_").
Proof. intros H. destruct rem; simpl; by rewrite decide_False. Qed.

Lemma nameLoop_exhausted ex mp comps :
  strings.Join comps "_" ∈ ex →
  nameLoop ToSnake ex mp [] comps
  = Err ("cannot create unique module name for " +:+ mp).
Proof. intros H. simpl. by rewrite decide_True. Qed.

Lemma nameLoop_skip ex mp seg segs comps :
  strings.Join comps "_" ∈ ex → ToSnake seg ∈ comps →
  nameLoop ToSnake ex mp (seg :: segs) comps = nameLoop ToSnake ex mp segs comps.
Proof. intros H1 H2. simpl. by rewrite !decide_True. Qed.

Lemma nameLoop_prepend ex mp seg segs comps :
  strings.Join comps "_" ∈ ex → ToSnake seg ∉ comps →
  nameLoop ToSnake ex mp (seg :: segs) comps
  = nameLoop ToSnake ex mp segs (ToSnake seg :: comps).
Proof. intros H1 H2. simpl. by rewrite decide_True, decide_False. Qed.

(** The loop returns the first candidate of the specification that is not
    taken, and fails when there is none. *)
Lemma nameLoop_firstFree ex mp rem comps :
  nameLoop ToSnake ex mp rem comps =
  match firstFree ex (comps :: prependings ToSnake rem comps) with
  | Some name => Ok name
  | None => Err ("cannot create unique module name for " +:+ mp)
  end.
Proof.
  revert comps. induction rem as [|seg segs IH]; intros comps.
  - unfold firstFree. simpl. destruct (decide (strings.Join comps "_" ∈ ex)).
    + by rewrite bool_decide_false by auto.
    + by rewrite bool_decide_true.
  - destruct (decide (strings.Join comps "_" ∈ ex)) as [Hin|Hout].
    + destruct (decide (ToSnake seg ∈ comps)) as [Hs|Hs].
      * rewrite nameLoop_skip, IH by done.
        unfold firstFree. simpl.
        rewrite (decide_True (P := ToSnake seg ∈ comps)) by done.
        by rewrite bool_decide_false by auto.
      * rewrite nameLoop_prepend, IH by done.
        unfold firstFree. simpl.
        rewrite (decide_False (P := ToSnake seg ∈ comps)) by done.
        by rewrite (bool_decide_false (strings.Join comps "_" ∉ ex)) by auto.
    + rewrite nameLoop_free by done.
      unfold firstFree. simpl. by rewrite bool_decide_true.
Qed.

Lemma prependings_NoDup segs comps :
  NoDup comps → Forall NoDup (prependings ToSnake segs comps).
Proof.
  revert comps. induction segs as [|seg segs IH]; intros comps Hnd; simpl.
  - constructor.
  - destruct (decide (ToSnake seg ∈ comps)); [by apply IH|].
    assert (NoDup (ToSnake seg :: comps)) by by constructor.
    constructor; [done | by apply IH].
Qed.

Lemma nameLoop_fresh ex mp rem comps name :
  nameLoop ToSnake ex mp rem comps = Ok name → name ∉ ex.
Proof.
  revert comps. induction rem as [|seg segs IH]; intros comps; simpl.
  - destruct (decide (strings.Join comps "_" ∈ ex)); [done|]. by intros [= <-].
  - destruct (decide (strings.Join comps "_" ∈ ex)); [|by intros [= <-]].
    destruct (decide (ToSnake seg ∈ comps)); apply IH.
Qed.

Lemma nameLoop_error ex mp rem comps e :
  nameLoop ToSnake ex mp rem comps = Err e →
  e = "cannot create unique module name for " +:+ mp.
Proof.
  revert comps. induction rem as [|seg segs IH]; intros comps; simpl.
  - destruct (decide (strings.Join comps "_" ∈ ex)); [by intros [= <-] | done].
  - destruct (decide (strings.Join comps "_" ∈ ex)); [|done].
    destruct (decide (ToSnake seg ∈ comps)); apply IH.
Qed.

Lemma nameLoop_no_panic ex mp rem comps :
  nameLoop ToSnake ex mp rem comps ≠ Panic.
Proof.
  revert comps. induction rem as [|seg segs IH]; intros comps; simpl.
  - by destruct (decide (strings.Join comps "_" ∈ ex)).
  - destruct (decide (strings.Join comps "_" ∈ ex)); [|done].
    destruct (decide (ToSnake seg ∈ comps)); apply IH.
Qed.

Lemma assignNames_cons mdn k ks mun ex :
  assignNames ToSnake mdn (k :: ks) mun ex =
  match uniqueModuleName ToSnake ex mdn k with
  | Err e => Err e
  | Panic => Panic
  | Ok name => assignNames ToSnake mdn ks (<[k := name]> mun) ({[name]} ∪ ex)
  end.
Proof. reflexivity. Qed.

(** What a successful run of the loop over the keys has done: the keys not
    in the list keep their entry, every key of the list has a name that was
    not taken before, and two different keys of the list have different
    names. *)
Lemma assignNames_ok mdn keys mun ex m :
  NoDup keys →
  assignNames ToSnake mdn keys mun ex = Ok m →
  (∀ k, k ∉ keys → m !! k = mun !! k) ∧
  (∀ k, k ∈ keys → ∃ name, m !! k = Some name ∧ name ∉ ex) ∧
  (∀ k1 k2, k1 ∈ keys → k2 ∈ keys → k1 ≠ k2 → m !! k1 ≠ m !! k2).
Proof.
  revert mun ex. induction keys as [|k ks IH]; intros mun ex Hnd Hrun.
  - simpl in Hrun. injection Hrun as <-.
    split; [done|]. split; [intros ? []%elem_of_nil | intros ?? []%elem_of_nil].
  - rewrite assignNames_cons in Hrun.
    destruct (uniqueModuleName ToSnake ex mdn k) as [name| |] eqn:Hname; try done.
    apply NoDup_cons in Hnd as [Hk Hnd].
    destruct (IH _ _ Hnd Hrun) as (Hout & Hin & Hinj).
    assert (name ∉ ex) as Hfresh by (by eapply nameLoop_fresh).
    assert (m !! k = Some name) as Hmk.
    { by rewrite (Hout k Hk), lookup_insert_eq. }
    assert (∀ k', k' ∈ ks → ∃ n, m !! k' = Some n ∧ (n ∉ ex) ∧ n ≠ name) as Hks.
    { intros k' Hk'. destruct (Hin k' Hk') as (n & Hn & Hnot).
      apply not_elem_of_union in Hnot as [Hn1 Hn2].
      apply not_elem_of_singleton in Hn1. by exists n. }
    split; [|split].
    + intros k' Hk'. apply not_elem_of_cons in Hk' as [Hne Hk'].
      by rewrite (Hout k' Hk'), lookup_insert_ne.
    + intros k' [->|Hk']%elem_of_cons; [by exists name|].
      destruct (Hks k' Hk') as (n & ? & ? & ?). by exists n.
    + intros k1 k2 [->|H1]%elem_of_cons [->|H2]%elem_of_cons Hne; try done.
      * destruct (Hks k2 H2) as (n & Hn & _ & ?). rewrite Hmk, Hn. congruence.
      * destruct (Hks k1 H1) as (n & Hn & _ & ?). rewrite Hmk, Hn. congruence.
      * by apply Hinj.
Qed.

Lemma assignNames_error mdn keys mun ex e :
  assignNames ToSnake mdn keys mun ex = Err e →
  ∃ k, k ∈ keys ∧ e = "cannot create unique module name for " +:+ k.
Proof.
  revert mun ex. induction keys as [|k ks IH]; intros mun ex Hrun; [done|].
  rewrite assignNames_cons in Hrun.
  destruct (uniqueModuleName ToSnake ex mdn k) as [name|e'|] eqn:Hname; try done.
  - destruct (IH _ _ Hrun) as (k' & ? & ?). exists k'. split; [by right | done].
  - injection Hrun as <-. exists k. split; [by left|].
    by eapply nameLoop_error.
Qed.

Lemma assignNames_no_panic mdn keys mun ex :
  assignNames ToSnake mdn keys mun ex ≠ Panic.
Proof.
  revert mun ex. induction keys as [|k ks IH]; intros mun ex; [done|].
  rewrite assignNames_cons.
  destruct (uniqueModuleName ToSnake ex mdn k) as [name|e'|] eqn:Hname; try done.
  by apply nameLoop_no_panic in Hname.
Qed.

End UniqueModuleNamerProperties.

Lemma sink_Permutation {A} (cmp : A → A → Z) x l : sink cmp x l ≡ₚ x :: l.
Proof.
  induction l as [|y l IH]; simpl; [done|].
  destruct (cmp x y <? 0); [|done].
  rewrite IH. apply Permutation_swap.
Qed.

Lemma insertionSort_Permutation {A} (cmp : A → A → Z) l :
  insertionSortCmpFunc cmp l ≡ₚ l.
Proof.
  unfold insertionSortCmpFunc.
  assert (∀ acc, fold_left (λ sorted x, sink cmp x sorted) l acc ≡ₚ l ++ acc) as H.
  { induction l as [|x l IH]; intros acc; simpl; [done|].
    rewrite IH, sink_Permutation. by rewrite Permutation_middle. }
  rewrite <- (Permutation_rev _), H. by rewrite app_nil_r.
Qed.

(** The names given to the declared modules are pairwise different. *)
Lemma declared_modules_distinct_names ToSnake pkg mdn ranged m :
  NoDup ranged →
  uniqueModuleNames ToSnake pkg mdn ranged = Ok m →
  ∀ k1 k2, k1 ∈ ranged → k2 ∈ ranged → k1 ≠ k2 →
    is_Some (m !! k1) ∧ m !! k1 ≠ m !! k2.
Proof.
  intros Hnd Hrun k1 k2 H1 H2 Hne.
  unfold uniqueModuleNames in Hrun.
  pose proof (insertionSort_Permutation (compareModulePaths pkg) ranged) as Hp.
  apply assignNames_ok in Hrun as (_ & Hin & Hinj); [|by rewrite Hp].
  split.
  - destruct (Hin k1) as (n & -> & _); [by rewrite Hp | done].
  - apply Hinj; by rewrite ?Hp.
Qed.

(** C1. A package that declares the name [C] gets the unique name [C], which
    the entry of the pseudo-module "C" already has: the loop starts from an
    empty [existingModuleNames], in which "C" is not recorded as taken. *)
Theorem sentinel_name_not_reserved (ToSnake : string → string) (pkg : string) :
  rangeOrder cwrapNames ["example.com/cwrap"] ∧
  ∃ m, uniqueModuleNames ToSnake pkg cwrapNames ["example.com/cwrap"] = Ok m ∧
       m !! "C" = Some "C" ∧
       m !! "example.com/cwrap" = Some "C" ∧
       "C" ≠ "example.com/cwrap".
Proof.
  split.
  - split; [apply NoDup_singleton|].
    intros k. unfold cwrapNames. rewrite list_elem_of_singleton.
    split.
    + intros ->. by rewrite lookup_singleton_eq.
    + intros [v Hv]. by apply lookup_singleton_Some in Hv as [<- _].
  - eexists. split; [|split; [|split]].
    + vm_compute. reflexivity.
    + reflexivity.
    + reflexivity.
    + discriminate.
Qed.

(** Closes [x ∉ [y1; ...; yn]] for distinct literals. *)
Ltac not_in_list :=
  repeat (apply not_elem_of_cons; split; [discriminate|]); apply not_elem_of_nil.

Section ModuleNameExamples.

Variable ToSnake : string → string.

Lemma uniqueModuleName_declared ex mdn modPath declared :
  mdn !! modPath = Some declared → declared ∉ ex →
  uniqueModuleName ToSnake ex mdn modPath = Ok declared.
Proof.
  intros Hd Hfree. unfold uniqueModuleName. rewrite Hd. simpl default.
  by rewrite nameLoop_free.
Qed.

Lemma uniqueModuleName_firstFree ex mdn modPath :
  uniqueModuleName ToSnake ex mdn modPath =
  match firstFree ex (candidateComponents ToSnake
                        (default EmptyString (mdn !! modPath)) modPath) with
  | Some name => Ok name
  | None => Err ("cannot create unique module name for " +:+ modPath)
  end.
Proof. apply nameLoop_firstFree. Qed.

Lemma audio_elems :
  rev (strings.Split (removeModulePathVersionElements audioPath) "/")
  = ["audio"; "resources"; "app"; "example.com"].
Proof. reflexivity. Qed.

Lemma audio_scenario ex mdn :
  mdn !! audioPath = Some "audio" →
  ToSnake "audio" = "audio" → ToSnake "resources" = "resources" →
  ToSnake "app" = "app" →
  "audio" ∈ ex →
  ("resources_audio" ∉ ex →
   uniqueModuleName ToSnake ex mdn audioPath = Ok "resources_audio") ∧
  ("resources_audio" ∈ ex → "app_resources_audio" ∉ ex →
   uniqueModuleName ToSnake ex mdn audioPath = Ok "app_resources_audio").
Proof.
  intros Hd Ha Hr Hp Htaken.
  unfold uniqueModuleName. rewrite Hd, audio_elems. simpl default.
  rewrite nameLoop_skip; [| done | rewrite Ha; apply list_elem_of_here].
  rewrite nameLoop_prepend; [| done | rewrite Hr; not_in_list].
  rewrite Hr. split.
  - intros Hfree. by rewrite nameLoop_free.
  - intros Htaken2 Hfree.
    rewrite nameLoop_prepend; [| done | rewrite Hp; not_in_list].
    rewrite Hp. by rewrite nameLoop_free.
Qed.

End ModuleNameExamples.

(** C8. For every module, the namer returns the first name that is not
    taken among the candidates of the specification: the declared name, then
    the names obtained by putting in front, one at a time from the last
    element of the version-stripped path backwards, the snake-case form of
    each element that is not yet a component; no candidate repeats a
    component; when every candidate is taken the result is the fatal error.
    For "example.com/app/resources/audio" declared as [audio], with
    [audio] taken, the name is [resources_audio], and [app_resources_audio]
    when that is taken too. *)
Theorem module_name_by_prepending (ToSnake : string → string) :
  (∀ ex mdn modPath,
     uniqueModuleName ToSnake ex mdn modPath =
     match firstFree ex (candidateComponents ToSnake
                           (default EmptyString (mdn !! modPath)) modPath) with
     | Some name => Ok name
     | None => Err ("cannot create unique module name for " +:+ modPath)
     end) ∧
  (∀ declared modPath,
     Forall NoDup (candidateComponents ToSnake declared modPath)) ∧
  (∀ ex mdn,
     mdn !! audioPath = Some "audio" →
     ToSnake "audio" = "audio" → ToSnake "resources" = "resources" →
     ToSnake "app" = "app" →
     "audio" ∈ ex →
     ("resources_audio" ∉ ex →
      uniqueModuleName ToSnake ex mdn audioPath = Ok "resources_audio") ∧
     ("resources_audio" ∈ ex → "app_resources_audio" ∉ ex →
      uniqueModuleName ToSnake ex mdn audioPath = Ok "app_resources_audio")) ∧
  (∀ ex mp comps,
     strings.Join comps "_" ∈ ex →
     nameLoop ToSnake ex mp [] comps
     = Err ("cannot create unique module name for " +:+ mp)).
Proof.
  split; [|split; [|split]].
  - apply uniqueModuleName_firstFree.
  - intros declared modPath. unfold candidateComponents.
    constructor; [apply NoDup_singleton|].
    apply prependings_NoDup, NoDup_singleton.
  - apply audio_scenario.
  - apply nameLoop_exhausted.
Qed.

Lemma module_name_by_prepending_witness :
  uniqueModuleName (λ s, s) {["audio"]} {[audioPath := "audio"]} audioPath
    = Ok "resources_audio" ∧
  uniqueModuleName (λ s, s) {["audio"; "resources_audio"]} {[audioPath := "audio"]} audioPath
    = Ok "app_resources_audio" ∧
  uniqueModuleName (λ s, s) {["audio"]} {["audio" := "audio"]} "audio"
    = Err "cannot create unique module name for audio".
Proof.
  pose proof (module_name_by_prepending (λ s, s)) as (Hfirst & _ & Hscen & _).
  split; [|split].
  - apply (Hscen {["audio"]} {[audioPath := "audio"]});
      [reflexivity | reflexivity | reflexivity | reflexivity
      | by vm_compute | by vm_compute].
  - apply (Hscen {["audio"; "resources_audio"]} {[audioPath := "audio"]});
      [reflexivity | reflexivity | reflexivity | reflexivity
      | by vm_compute | by vm_compute | by vm_compute].
  - rewrite Hfirst. reflexivity.
Defined.

(** *** The comparator as an order *)

Lemma stdRule_skew a b : stdRule b a = Z.opp <$> stdRule a b.
Proof.
  unfold stdRule.
  destruct (0 <? length (strings.SplitN2 a "/"))%nat,
           (0 <? length (strings.SplitN2 b "/"))%nat; simpl; try done.
  by destruct (isStd (strings.SplitN2 a "/")), (isStd (strings.SplitN2 b "/")).
Qed.

Lemma preferRule_skew p a b : preferRule p b a = Z.opp <$> preferRule p a b.
Proof.
  unfold preferRule. destruct (negb (String.eqb p "")); [|done].
  by destruct (strings.HasPrefix a p), (strings.HasPrefix b p).
Qed.

Lemma versionRule_skew a b : versionRule b a = Z.opp <$> versionRule a b.
Proof.
  unfold versionRule; cbv zeta.
  set (la := length (strings.Split a "/")).
  set (lb := length (strings.Split b "/")).
  set (va := modulePathElementVersion (lastElem (strings.Split a "/"))).
  set (vb := modulePathElementVersion (lastElem (strings.Split b "/"))).
  destruct (Nat.leb_spec 1 la), (Nat.leb_spec 1 lb); simpl; try done.
  destruct (Nat.eqb_spec la lb), (Nat.eqb_spec lb la); try lia;
  destruct (Nat.eqb_spec la (lb + 1)), (Nat.eqb_spec lb (la + 1)); try lia;
  destruct (Nat.eqb_spec (la + 1) lb), (Nat.eqb_spec (lb + 1) la); try lia;
  destruct (Z.ltb_spec va vb), (Z.ltb_spec vb va); try lia;
  destruct (Z.ltb_spec 1 va), (Z.ltb_spec 1 vb); simpl; try done; try lia.
Qed.

Lemma Compare_skew a b : strings.Compare b a = - strings.Compare a b.
Proof.
  unfold strings.Compare. rewrite (String.compare_antisym b a).
  by destruct (String.compare a b).
Qed.

(** Swapping the arguments of the comparator negates its result. *)
Lemma compareModulePaths_skew p a b :
  compareModulePaths p b a = - compareModulePaths p a b.
Proof.
  unfold compareModulePaths; cbv zeta.
  rewrite (stdRule_skew (removeModulePathVersionElements a)).
  destruct (stdRule _ _) as [r|]; simpl; [done|].
  rewrite (preferRule_skew p a).
  destruct (preferRule p a b) as [r|]; simpl; [done|].
  set (sa := removeModulePathVersionElements a).
  set (sb := removeModulePathVersionElements b).
  destruct (Nat.ltb_spec (String.length sa) (String.length sb)),
           (Nat.ltb_spec (String.length sb) (String.length sa)); try lia; try done.
  unfold String.ltb. rewrite (String.compare_antisym sb sa).
  destruct (String.compare sa sb); simpl; try done.
  rewrite (versionRule_skew a).
  destruct (versionRule a b) as [r|]; simpl; [done|].
  apply Compare_skew.
Qed.

Lemma stdRule_nonzero a b r : stdRule a b = Some r → r ≠ 0.
Proof.
  unfold stdRule.
  destruct ((0 <? _)%nat && (0 <? _)%nat); [|done].
  destruct (isStd _ && negb (isStd _)); [by intros [= <-]|].
  destruct (negb (isStd _) && isStd _); [by intros [= <-]|done].
Qed.

Lemma preferRule_nonzero p a b r : preferRule p a b = Some r → r ≠ 0.
Proof.
  unfold preferRule. destruct (negb (String.eqb p "")); [|done].
  destruct (strings.HasPrefix a p), (strings.HasPrefix b p); simpl;
    try done; by intros [= <-].
Qed.

Lemma versionRule_nonzero a b r : versionRule a b = Some r → r ≠ 0.
Proof.
  unfold versionRule; cbv zeta.
  repeat match goal with
         | |- context [if ?c then _ else _] => destruct c
         end; try done; by intros [= <-].
Qed.

(** The comparator returns 0 only for equal paths. *)
Lemma compareModulePaths_zero p a b : compareModulePaths p a b = 0 → a = b.
Proof.
  unfold compareModulePaths; cbv zeta.
  destruct (stdRule _ _) as [r|] eqn:Hs.
  { intros ->. by apply stdRule_nonzero in Hs. }
  destruct (preferRule p a b) as [r|] eqn:Hp.
  { intros ->. by apply preferRule_nonzero in Hp. }
  destruct (_ <? _)%nat; [done|]. destruct (_ <? _)%nat; [done|].
  destruct (String.ltb _ _); [done|]. destruct (String.ltb _ _); [done|].
  destruct (versionRule a b) as [r|] eqn:Hv.
  { intros ->. by apply versionRule_nonzero in Hv. }
  unfold strings.Compare.
  destruct (String.compare a b) eqn:Hc; try done.
  intros _. by apply String.compare_eq_iff.
Qed.

Lemma sortsBefore_asym p a b : sortsBefore p a b → ¬ sortsBefore p b a.
Proof. unfold sortsBefore. rewrite (compareModulePaths_skew p a b). lia. Qed.

Lemma sortsBefore_total p a b : a ≠ b → sortsBefore p a b ∨ sortsBefore p b a.
Proof.
  intros Hne. unfold sortsBefore. rewrite (compareModulePaths_skew p a b).
  pose proof (compareModulePaths_zero p a b). 
  destruct (Z.lt_trichotomy (compareModulePaths p a b) 0) as [?|[?|?]]; [auto|naive_solver|right; lia].
Qed.

Section InsertionSort.
Context {A : Type} (cmp : A → A → Z).
Local Abbreviation R := (λ a b, cmp a b < 0).

(** [keys]: the elements on which the comparator is a strict total order. *)
Variable keys : list A.
Hypothesis cmp_trans : ∀ a b c, a ∈ keys → b ∈ keys → c ∈ keys →
  cmp a b < 0 → cmp b c < 0 → cmp a c < 0.
Hypothesis cmp_total : ∀ a b, a ∈ keys → b ∈ keys → a ≠ b →
  cmp a b < 0 ∨ cmp b a < 0.

Lemma sink_sorted x before :
  x ∈ keys → (∀ y, y ∈ before → y ∈ keys) → x ∉ before →
  StronglySorted (flip R) before →
  StronglySorted (flip R) (sink cmp x before).
Proof.
  intros Hx Hkeys Hnot Hs.
  induction Hs as [|y before Hs IH Hy]; simpl.
  - repeat constructor.
  - apply not_elem_of_cons in Hnot as [Hne Hnot].
    assert (y ∈ keys) as Hyk by (apply Hkeys; by left).
    assert (∀ z, z ∈ before → z ∈ keys) as Hbk by (intros z Hz; apply Hkeys; by right).
    destruct (Z.ltb_spec (cmp x y) 0) as [Hlt|Hge].
    + constructor; [by apply IH|].
      apply Forall_forall. intros z Hz.
      rewrite sink_Permutation in Hz. apply elem_of_cons in Hz as [->|Hz]; [done|].
      rewrite Forall_forall in Hy. by apply Hy.
    + assert (cmp y x < 0) as Hyx.
      { destruct (cmp_total x y) as [?|?]; [done..|lia|done]. }
      constructor; [by constructor|].
      apply Forall_forall. intros z [->|Hz]%elem_of_cons; [done|].
      rewrite Forall_forall in Hy. simpl.
      apply (cmp_trans z y x); auto. by apply Hy.
Qed.

Lemma insertionSort_sorted l :
  NoDup l → (∀ y, y ∈ l → y ∈ keys) →
  StronglySorted R (insertionSortCmpFunc cmp l).
Proof.
  intros Hnd Hkeys. unfold insertionSortCmpFunc.
  assert (∀ acc, StronglySorted (flip R) acc → (∀ y, y ∈ acc → y ∈ keys) →
                 (∀ y, y ∈ l → y ∉ acc) →
                 StronglySorted (flip R)
                   (fold_left (λ sorted x, sink cmp x sorted) l acc)) as Hfold.
  { induction l as [|x l IH]; intros acc Hacc Hak Hdisj; simpl; [done|].
    apply NoDup_cons in Hnd as [Hx Hnd].
    apply IH; [done| | | |].
    - intros y Hy. apply Hkeys. by right.
    - apply sink_sorted; [apply Hkeys; by left | done | apply Hdisj; by left | done].
    - intros y. rewrite sink_Permutation. intros [->|Hy]%elem_of_cons; [|by apply Hak].
      apply Hkeys. by left.
    - intros y Hy. rewrite sink_Permutation. apply not_elem_of_cons. split.
      + intros ->. done.
      + apply Hdisj. by right. }
  specialize (Hfold [] (SSorted_nil _) ltac:(by intros ? ?%elem_of_nil)
                ltac:(by intros ? _ ?%elem_of_nil)).
  revert Hfold. generalize (fold_left (λ sorted x, sink cmp x sorted) l []).
  intros s Hs. induction Hs as [|y s Hs IH Hy]; simpl; [constructor|].
  apply StronglySorted_app_2; [|done|repeat constructor].
  intros a b Ha ->%list_elem_of_singleton.
  rewrite Forall_forall in Hy. apply Hy.
  by apply list_elem_of_In, in_rev, list_elem_of_In.
Qed.

End InsertionSort.

(** On a set of keys on which the comparator is transitive, the sorted order
    of the keys is the same for every order in which the [range] loop
    yields them, and so are the names. *)
Lemma names_independent_of_range_order (ToSnake : string → string) (pkg : string)
    (modDefaultNames : gmap string string) (ranged1 ranged2 : list string) :
  rangeOrder modDefaultNames ranged1 →
  rangeOrder modDefaultNames ranged2 →
  (∀ a b c,
     is_Some (modDefaultNames !! a) → is_Some (modDefaultNames !! b) →
     is_Some (modDefaultNames !! c) →
     sortsBefore pkg a b → sortsBefore pkg b c → sortsBefore pkg a c) →
  uniqueModuleNames ToSnake pkg modDefaultNames ranged1
  = uniqueModuleNames ToSnake pkg modDefaultNames ranged2.
Proof.
  intros [Hnd1 Hk1] [Hnd2 Hk2] Htrans. unfold uniqueModuleNames; cbv zeta.
  f_equal.
  assert (ranged1 ≡ₚ ranged2) as Hperm.
  { apply NoDup_Permutation; [done..|]. intros k. by rewrite Hk1, Hk2. }
  apply (StronglySorted_unique_strong (sortsBefore pkg)).
  - intros a b _ _ Hab Hba. by apply sortsBefore_asym in Hab.
  - apply (insertionSort_sorted _ ranged1); [| |done..].
    + intros a b c Ha Hb Hc. apply Htrans; by apply Hk1.
    + intros a b _ _. apply sortsBefore_total.
  - apply (insertionSort_sorted _ ranged1); [| |done|].
    + intros a b c Ha Hb Hc. apply Htrans; by apply Hk1.
    + intros a b _ _. apply sortsBefore_total.
    + intros y Hy. by rewrite Hperm.
  - by rewrite !insertionSort_Permutation.
Qed.

(** The comparator is not transitive: on these three paths it goes round in
    a circle, so that each of them sorts before the next. *)
Lemma compare_cycle :
  compareModulePaths "example.com/app" "example.com/lib/v2" "example.com/lib" = -1 ∧
  compareModulePaths "example.com/app" "example.com/lib" "example.com/lib/v2/v3" = -1 ∧
  compareModulePaths "example.com/app" "example.com/lib/v2/v3" "example.com/lib/v2" = -1.
Proof. by vm_compute. Qed.

(** No enumeration of the four keys is sorted by the comparator. *)
Lemma libKeys_unsortable l :
  l ≡ₚ libKeys → ¬ StronglySorted (sortsBefore "example.com/app") l.
Proof.
  intros Hp. symmetry in Hp. apply permutations_Permutation in Hp.
  revert l Hp.
  apply (proj1 (Forall_forall
                  (λ l, ¬ StronglySorted (sortsBefore "example.com/app") l) _)).
  apply (bool_decide_unpack _). by vm_compute.
Qed.

Lemma libNames_rangeOrder ranged : ranged ≡ₚ libKeys → rangeOrder libNames ranged.
Proof.
  intros Hp. split.
  - rewrite Hp. repeat (apply NoDup_cons; split; [not_in_list|]). apply NoDup_nil_2.
  - intros k. rewrite Hp. unfold libNames, libKeys.
    rewrite !lookup_insert_is_Some, lookup_empty, !elem_of_cons, elem_of_nil.
    split.
    + intros [->|[->|[->|[->|[]]]]]; [by left|right..].
      * split; [done|]. by left.
      * split; [done|]. right. split; [done|]. by left.
      * split; [done|]. right. split; [done|]. right. split; [done|]. by left.
    + intros [<-|[_ [<-|[_ [<-|[_ [<-|[_ H]]]]]]]]; auto 6.
      by apply is_Some_None in H.
Qed.

Section RangeOrder.

Variable ToSnake : string → string.

(** The run in which "example.com/lib/v2" is yielded before
    "example.com/lib": it is named [lib], or the run fails at one of the two
    modules after it. *)
Lemma lib_v2_first :
  (∃ m, uniqueModuleNames ToSnake "example.com/app" libNames
          ["example.com/app"; "example.com/lib/v2"; "example.com/lib";
           "example.com/lib/v2/v3"] = Ok m ∧
        m !! "example.com/lib/v2" = Some "lib") ∨
  (∃ k, uniqueModuleNames ToSnake "example.com/app" libNames
          ["example.com/app"; "example.com/lib/v2"; "example.com/lib";
           "example.com/lib/v2/v3"]
        = Err ("cannot create unique module name for " +:+ k) ∧
        k ∈ ["example.com/lib"; "example.com/lib/v2/v3"]).
Proof.
  unfold uniqueModuleNames; cbv zeta.
  replace (insertionSortCmpFunc (compareModulePaths "example.com/app")
             ["example.com/app"; "example.com/lib/v2"; "example.com/lib";
              "example.com/lib/v2/v3"])
    with ["example.com/app"; "example.com/lib/v2"; "example.com/lib";
          "example.com/lib/v2/v3"]
    by (by vm_compute).
  rewrite assignNames_cons.
  rewrite (uniqueModuleName_declared _ _ _ _ "app");
    [| reflexivity | apply not_elem_of_empty].
  rewrite assignNames_cons.
  rewrite (uniqueModuleName_declared _ _ _ _ "lib"); [| reflexivity |].
  2: { intros [H|H]%elem_of_union.
       - by apply elem_of_singleton in H.
       - by apply elem_of_empty in H. }
  match goal with |- context [assignNames ?t ?d ?ks ?mun ?ex] =>
    destruct (assignNames t d ks mun ex) as [m|e|] eqn:E end.
  - left. exists m. split; [done|].
    apply assignNames_ok in E as (Hout & _ & _).
    + rewrite Hout by not_in_list. apply lookup_insert_eq.
    + repeat (apply NoDup_cons; split; [not_in_list|]). apply NoDup_nil_2.
  - right. apply assignNames_error in E as (k & Hk & ->). by exists k.
  - by apply assignNames_no_panic in E.
Qed.

(** The run in which "example.com/lib" is yielded first of the three:
    "example.com/lib/v2" comes last and is not named [lib], or the run fails
    at it. *)
Lemma lib_first :
  (∃ m, uniqueModuleNames ToSnake "example.com/app" libNames
          ["example.com/app"; "example.com/lib"; "example.com/lib/v2/v3";
           "example.com/lib/v2"] = Ok m ∧
        m !! "example.com/lib/v2" ≠ Some "lib") ∨
  uniqueModuleNames ToSnake "example.com/app" libNames
    ["example.com/app"; "example.com/lib"; "example.com/lib/v2/v3";
     "example.com/lib/v2"]
  = Err ("cannot create unique module name for " +:+ "example.com/lib/v2").
Proof.
  unfold uniqueModuleNames; cbv zeta.
  replace (insertionSortCmpFunc (compareModulePaths "example.com/app")
             ["example.com/app"; "example.com/lib"; "example.com/lib/v2/v3";
              "example.com/lib/v2"])
    with ["example.com/app"; "example.com/lib"; "example.com/lib/v2/v3";
          "example.com/lib/v2"]
    by (by vm_compute).
  rewrite assignNames_cons.
  rewrite (uniqueModuleName_declared _ _ _ _ "app");
    [| reflexivity | apply not_elem_of_empty].
  rewrite assignNames_cons.
  rewrite (uniqueModuleName_declared _ _ _ _ "lib"); [| reflexivity |].
  2: { intros [H|H]%elem_of_union.
       - by apply elem_of_singleton in H.
       - by apply elem_of_empty in H. }
  rewrite assignNames_cons.
  rewrite (uniqueModuleName_declared _ _ _ _ "v3"); [| reflexivity |].
  2: { intros [H|[H|H]%elem_of_union]%elem_of_union.
       - by apply elem_of_singleton in H.
       - by apply elem_of_singleton in H.
       - by apply elem_of_empty in H. }
  match goal with |- context [assignNames ?t ?d ?ks ?mun ?ex] =>
    destruct (assignNames t d ks mun ex) as [m|e|] eqn:E end.
  - left. exists m. split; [done|].
    apply assignNames_ok in E as (_ & Hin & _); [|apply NoDup_singleton].
    destruct (Hin "example.com/lib/v2") as (name & Hname & Hfresh);
      [apply list_elem_of_here|].
    rewrite Hname. intros [= ->]. apply Hfresh.
    apply elem_of_union_r, elem_of_union_l. by apply elem_of_singleton.
  - right. apply assignNames_error in E as (k & Hk & ->).
    by apply list_elem_of_singleton in Hk as ->.
  - by apply assignNames_no_panic in E.
Qed.

End RangeOrder.

(** C4. The names of the modules depend on the order in which the [range]
    loop yields the keys of [modDefaultNames]. The comparator is not
    transitive on three of the four paths of [libNames], so that no
    enumeration of the keys is sorted by it; the insertion sort leaves both
    enumerations below as they are, the module of the two named [lib] that
    comes first takes that name, and the two runs end differently whatever
    [strcase.ToSnake] does. *)
Theorem module_names_depend_on_range_order (ToSnake : string → string) :
  (∀ l, l ≡ₚ libKeys → ¬ StronglySorted (sortsBefore "example.com/app") l) ∧
  rangeOrder libNames
    ["example.com/app"; "example.com/lib/v2"; "example.com/lib";
     "example.com/lib/v2/v3"] ∧
  rangeOrder libNames
    ["example.com/app"; "example.com/lib"; "example.com/lib/v2/v3";
     "example.com/lib/v2"] ∧
  uniqueModuleNames ToSnake "example.com/app" libNames
    ["example.com/app"; "example.com/lib/v2"; "example.com/lib";
     "example.com/lib/v2/v3"]
  ≠
  uniqueModuleNames ToSnake "example.com/app" libNames
    ["example.com/app"; "example.com/lib"; "example.com/lib/v2/v3";
     "example.com/lib/v2"].
Proof.
  split; [apply libKeys_unsortable|].
  split; [by apply libNames_rangeOrder|].
  split.
  { apply libNames_rangeOrder. unfold libKeys. apply perm_skip.
    change ["example.com/lib"; "example.com/lib/v2/v3"; "example.com/lib/v2"]
      with (["example.com/lib"; "example.com/lib/v2/v3"] ++ ["example.com/lib/v2"]).
    by rewrite <- Permutation_cons_append. }
  intros Heq.
  destruct (lib_v2_first ToSnake) as [(m1 & E1 & H1)|(k & E1 & Hk)];
    destruct (lib_first ToSnake) as [(m2 & E2 & H2)|E2];
    rewrite E1, E2 in Heq; try discriminate Heq.
  - injection Heq as ->. by apply H2.
  - injection Heq as Hmsg. apply String.app_inj in Hmsg as ->.
    revert Hk. not_in_list.
Qed.

(** ** Binding Namer *)

(** Splits a hypothesis [visit ... = Ok st'] into the four ways the body of
    the loop can end without an error. *)
Ltac visit_cases H :=
  unfold visit in H;
  let Hi := fresh "Hi" in
  let Ht := fresh "Ht" in
  let Hpo := fresh "Hpo" in
  let Hpi := fresh "Hpi" in
  let Hlt1 := fresh "Hlt" in
  let Hlt2 := fresh "Hgt" in
  let Ho := fresh "Ho" in
  match type of H with
  | context [nameCandidates ?st !! ?i] =>
      destruct (nameCandidates st !! i) as [[|topName rest]|] eqn:Hi;
      [discriminate H | | discriminate H];
      destruct (topNames st !! topName) as [otherI|] eqn:Ht;
      [ match type of H with
        | context [?ps !! otherI] =>
            destruct (ps !! otherI) as [prioOther|] eqn:Hpo; [|discriminate H];
            destruct (ps !! i) as [prioI|] eqn:Hpi; [|discriminate H];
            destruct (prioOther <? prioI) eqn:Hlt1;
            [ | destruct (prioI <? prioOther) eqn:Hlt2;
                [ destruct (nameCandidates st !! otherI) as [[|topOther restOther]|] eqn:Ho;
                  [discriminate H | | discriminate H]
                | match type of H with
                  | context [?bs !! otherI] =>
                      destruct (bs !! otherI) as [other|] eqn:Ho; [|discriminate H]
                  end ] ]
        end
      | ];
      injection H as H; subst
  end.

(** *** The measure *)

Lemma string_length_app (s1 s2 : string) :
  String.length (s1 +:+ s2) = (String.length s1 + String.length s2)%nat.
Proof. induction s1 as [|c s1 IH]; simpl; [done|]. by rewrite <- IH. Qed.

Lemma positional_app base pre l :
  positional base (pre ++ l)
  = (positional base pre * base ^ length l + positional base l)%nat.
Proof.
  induction pre as [|d pre IH]; simpl; [lia|].
  rewrite IH, length_app, Nat.pow_add_r. lia.
Qed.

Lemma positional_bound base ds :
  Forall (λ d, d < base)%nat ds → (positional base ds < base ^ length ds)%nat.
Proof.
  induction 1 as [|d ds Hd _ IH]; simpl; [lia|]. nia.
Qed.

Lemma positional_lex base pre d d' post post' :
  length post = length post' → Forall (λ x, x < base)%nat post' → (d' < d)%nat →
  (positional base (pre ++ d' :: post') < positional base (pre ++ d :: post))%nat.
Proof.
  intros Hlen Hpost Hd. rewrite !positional_app. simpl. rewrite <- Hlen.
  apply positional_bound in Hpost. rewrite <- Hlen in Hpost.
  assert (positional base pre * base ^ S (length post)
          = positional base pre * base ^ S (length post))%nat by done.
  simpl. nia.
Qed.

Lemma rankAt_le hs i : (rankAt hs i ≤ i)%nat.
Proof.
  unfold rankAt. etrans; [apply length_filter|]. rewrite length_take. lia.
Qed.

Lemma ranks_length cands : length (ranks cands) = length cands.
Proof. unfold ranks. by rewrite length_map, length_seq. Qed.

Lemma ranks_bound cands : Forall (λ d, d < S (length cands))%nat (ranks cands).
Proof.
  unfold ranks. apply Forall_forall. intros d Hd.
  apply list_elem_of_fmap in Hd as (i & -> & Hi).
  apply elem_of_seq in Hi. pose proof (rankAt_le (map headLen cands) i). lia.
Qed.

Lemma sum_list_insert_pop (cands : list (list string)) p x rest :
  cands !! p = Some (x :: rest) →
  S (sum_list (map length (<[p := rest]> cands))) = sum_list (map length cands).
Proof.
  revert p. induction cands as [|l cands IH]; intros [|p] H; simplify_eq/=; [lia|].
  rewrite <- (IH p H). lia.
Qed.

Lemma sum_list_insert_same (cands : list (list string)) p l l' :
  cands !! p = Some l → length l' = length l →
  sum_list (map length (<[p := l']> cands)) = sum_list (map length cands).
Proof.
  revert p. induction cands as [|l0 cands IH]; intros [|p] H Hl; simplify_eq/=; [lia|].
  by rewrite (IH p H Hl).
Qed.

(** Popping a candidate decreases the measure. *)
Lemma conflictMeasure_pop cands p x rest :
  cands !! p = Some (x :: rest) →
  (conflictMeasure (<[p := rest]> cands) < conflictMeasure cands)%nat.
Proof.
  intros Hp. unfold conflictMeasure. rewrite length_insert.
  pose proof (sum_list_insert_pop _ _ _ _ Hp) as Hsum.
  pose proof (positional_bound _ _ (ranks_bound (<[p := rest]> cands))) as Hb.
  rewrite ranks_length, !length_insert in Hb.
  rewrite <- Hsum. simpl. lia.
Qed.

Lemma rankAt_insert_before hs i k h :
  (k < i)%nat → rankAt (<[i := h]> hs) k = rankAt hs k.
Proof.
  intros Hk. unfold rankAt.
  rewrite take_insert_ge by lia. by rewrite list_lookup_insert_ne by lia.
Qed.

Lemma rankAt_insert_longer hs i o h :
  (o < i)%nat → hs !! i = Some h → hs !! o = Some h →
  (rankAt (<[i := (h + 2)%nat]> hs) i < rankAt hs i)%nat.
Proof.
  intros Ho Hi Hoh. unfold rankAt.
  rewrite take_insert_ge by lia.
  rewrite list_lookup_insert_eq by (by eapply lookup_lt_Some).
  rewrite Hi. simpl.
  assert (filter (λ x, (h + 2 ≤ x)%nat) (take i hs)
          = filter (λ x, (h + 2 ≤ x)%nat) (filter (λ x, (h ≤ x)%nat) (take i hs))) as ->.
  { rewrite list_filter_filter. apply list_filter_iff. intros x. lia. }
  apply (length_filter_lt _ _ h); [|lia].
  apply list_elem_of_filter. split; [lia|].
  apply list_elem_of_lookup. exists o. by rewrite lookup_take_lt.
Qed.

Lemma seq_split_at i n :
  (i < n)%nat → seq 0 n = seq 0 i ++ i :: seq (S i) (n - S i).
Proof.
  intros Hi. replace n with (i + S (n - S i))%nat at 1 by lia.
  by rewrite seq_app.
Qed.

(** Renaming the top candidate of a binding that collides with an earlier
    one decreases the measure. *)
Lemma conflictMeasure_rename cands i o top rest restO :
  (o < i)%nat → cands !! i = Some (top :: rest) → cands !! o = Some (top :: restO) →
  (conflictMeasure (<[i := (top +:+ "-1") :: rest]> cands) < conflictMeasure cands)%nat.
Proof.
  intros Ho Hi Hoc. unfold conflictMeasure. rewrite length_insert.
  rewrite (sum_list_insert_same _ _ _ _ Hi) by done.
  apply Nat.add_lt_mono_l.
  apply lookup_lt_Some in Hi as Hlt.
  unfold ranks. rewrite length_insert, list_fmap_insert. simpl headLen.
  rewrite string_length_app. simpl String.length.
  set (hs := map headLen cands).
  assert (hs !! i = Some (String.length top)) as Hhi
    by (unfold hs; by rewrite list_lookup_fmap, Hi).
  assert (hs !! o = Some (String.length top)) as Hho
    by (unfold hs; by rewrite list_lookup_fmap, Hoc).
  rewrite (seq_split_at i (length cands)) by done.
  rewrite !map_app. simpl map.
  change (headLen <$> cands) with hs.
  assert (map (rankAt (<[i := (String.length top + 2)%nat]> hs)) (seq 0 i)
          = map (rankAt hs) (seq 0 i)) as ->.
  { apply map_ext_in. intros k Hk%in_seq. apply rankAt_insert_before. lia. }
  apply positional_lex.
  - by rewrite !length_map.
  - apply Forall_forall. intros d Hd.
    apply list_elem_of_fmap in Hd as (k & -> & Hk%elem_of_seq).
    pose proof (rankAt_le (<[i := (String.length top + 2)%nat]> hs) k). lia.
  - by eapply rankAt_insert_longer.
Qed.

Section BindingNamerProperties.

Variable NoPrefix : list string.
Variable sortedBindings : list binder.BindingFunc.

Local Abbreviation visit := (visit NoPrefix sortedBindings).
Local Abbreviation scan := (scan NoPrefix sortedBindings).
Local Abbreviation scanTrace := (scanTrace NoPrefix sortedBindings).
Local Abbreviation resolveConflicts := (resolveConflicts NoPrefix sortedBindings).
Local Abbreviation resolveTrace := (resolveTrace NoPrefix sortedBindings).
Local Abbreviation namePrios := (namePrios NoPrefix sortedBindings).
Local Abbreviation outranksPeers := (outranksPeers NoPrefix sortedBindings).

Lemma visit_length i bind st st' :
  visit i bind st = Ok st' →
  length (nameCandidates st') = length (nameCandidates st).
Proof. intros H. visit_cases H; simpl; by rewrite ?length_insert. Qed.

Lemma visit_topInv i bind st st' :
  topInv i st → visit i bind st = Ok st' → topInv (S i) st'.
Proof.
  intros Hinv H. visit_cases H; intros name j; simpl.
  - (* the binding visited gives way *)
    destruct (Hinv _ _ Ht) as (Hlt' & restO & HO).
    rewrite lookup_insert. case_decide as Hn.
    + intros [= <-]. subst name. split; [lia|].
      exists restO. rewrite list_lookup_insert_ne by lia. done.
    + intros Hj. destruct (Hinv _ _ Hj) as (? & r & ?).
      split; [lia|]. exists r. rewrite list_lookup_insert_ne by lia. done.
  - (* the earlier binding gives way *)
    destruct (Hinv _ _ Ht) as (Hlt' & restO & HO).
    rewrite lookup_insert. case_decide as Hn.
    + intros [= <-]. subst name. split; [lia|].
      exists rest. rewrite list_lookup_insert_ne by lia. done.
    + intros Hj. destruct (Hinv _ _ Hj) as (? & r & Hr).
      split; [lia|]. exists r.
      destruct (decide (otherI = j)) as [->|Hne].
      * rewrite HO in Hr. by injection Hr as -> _.
      * rewrite list_lookup_insert_ne by done. done.
  - (* same priority: the binding visited is renamed *)
    rewrite lookup_insert. case_decide as Hn.
    + intros [= <-]. subst name. split; [lia|].
      exists rest. apply list_lookup_insert_eq. by eapply lookup_lt_Some.
    + intros Hj. destruct (Hinv _ _ Hj) as (? & r & ?).
      split; [lia|]. exists r. rewrite list_lookup_insert_ne by lia. done.
  - (* no conflict *)
    rewrite lookup_insert. case_decide as Hn.
    + intros [= <-]. subst name. split; [lia|]. by exists rest.
    + intros Hj. destruct (Hinv _ _ Hj) as (? & r & ?).
      split; [lia|]. by exists r.
Qed.

Lemma visit_cleanInv i bind st st' :
  cleanInv i st → visit i bind st = Ok st' → cleanInv (S i) st'.
Proof.
  intros Hinv H. visit_cases H; intros Hclean; simpl in *; try discriminate.
  intros j Hj.
  destruct (decide (j = i)) as [->|Hne].
  - exists topName, rest. split; [done|]. apply lookup_insert_eq.
  - destruct (Hinv Hclean j) as (name & r & Hc & Hn); [lia|].
    exists name, r. split; [done|].
    rewrite lookup_insert_ne; [done|]. intros <-. congruence.
Qed.

Lemma visit_conflict_stays i bind st st' :
  visit i bind st = Ok st' → foundConflict st = true → foundConflict st' = true.
Proof. intros H. visit_cases H; simpl; auto. Qed.

Lemma visit_clean_same i bind st st' :
  visit i bind st = Ok st' → foundConflict st' = false →
  nameCandidates st' = nameCandidates st ∧ warn st' = warn st.
Proof. intros H. visit_cases H; simpl; try discriminate. done. Qed.

(** A pass that ends: the invariants hold at its end. *)
Lemma scan_inv binds i st st' :
  scan i binds st = Ok st' → topInv i st → cleanInv i st →
  topInv (i + length binds) st' ∧ cleanInv (i + length binds) st' ∧
  length (nameCandidates st') = length (nameCandidates st).
Proof.
  revert i st. induction binds as [|bind binds IH]; intros i st Hscan Ht Hc; simpl in *.
  - injection Hscan as <-. by rewrite Nat.add_0_r.
  - destruct (visit i bind st) as [st1| |] eqn:Hv; try done.
    destruct (IH _ _ Hscan) as (? & ? & Hlen);
      [by eapply visit_topInv | by eapply visit_cleanInv |].
    replace (i + S (length binds))%nat with (S i + length binds)%nat by lia.
    split_and!; [done | done |]. rewrite Hlen. by eapply visit_length.
Qed.

Lemma passStart_topInv cands w : topInv 0 (passStart cands w).
Proof. intros name j. simpl. by rewrite lookup_empty. Qed.

Lemma passStart_cleanInv cands w : cleanInv 0 (passStart cands w).
Proof. intros _ j Hj. lia. Qed.

(** The top candidates at the end of a pass without conflict are pairwise
    different, and there is one for every binding. *)
Lemma clean_pass_distinct cands w st :
  length cands = length sortedBindings →
  scan 0 sortedBindings (passStart cands w) = Ok st →
  foundConflict st = false →
  length (nameCandidates st) = length sortedBindings ∧
  ∀ j, (j < length sortedBindings)%nat →
    ∃ name rest, nameCandidates st !! j = Some (name :: rest) ∧
      ∀ j' rest', nameCandidates st !! j' = Some (name :: rest') → j' = j.
Proof.
  intros Hn Hscan Hclean.
  destruct (scan_inv _ _ _ _ Hscan (passStart_topInv _ _) (passStart_cleanInv _ _))
    as (Ht & Hc & Hlen). simpl in *.
  split; [congruence|].
  intros j Hj.
  destruct (Hc Hclean j Hj) as (name & rest & Hcj & Hnj).
  exists name, rest. split; [done|].
  intros j' rest' Hcj'.
  assert (j' < length sortedBindings)%nat as Hj'.
  { apply lookup_lt_Some in Hcj'. lia. }
  destruct (Hc Hclean j' Hj') as (name' & rest'' & Hcj'' & Hnj').
  rewrite Hcj' in Hcj''. injection Hcj'' as <- <-. congruence.
Qed.

Lemma firstNames_lookup cands names :
  firstNames cands = Ok names →
  ∀ j, names !! j = cands !! j ≫= head.
Proof.
  revert names. induction cands as [|[|name rest] cands IH]; intros names H j;
    simpl in H; try done.
  - by injection H as <-.
  - destruct (firstNames cands) as [names'| |]; try done.
    injection H as <-. destruct j as [|j]; simpl; [done|]. by apply IH.
Qed.

Lemma firstNames_length cands names :
  firstNames cands = Ok names → length names = length cands.
Proof.
  revert names. induction cands as [|[|name rest] cands IH]; intros names H;
    simpl in H; try done.
  - by injection H as <-.
  - destruct (firstNames cands) as [names'| |]; try done.
    injection H as <-. simpl. f_equal. by apply IH.
Qed.

(** A run that ends well ends with a pass that found no conflict. *)
Lemma resolveConflicts_last_pass fuel cands w cands' w' :
  length cands = length sortedBindings →
  resolveConflicts fuel cands w = Some (Ok (cands', w')) →
  ∃ cands0 w0 st,
    length cands0 = length sortedBindings ∧
    scan 0 sortedBindings (passStart cands0 w0) = Ok st ∧
    foundConflict st = false ∧ nameCandidates st = cands' ∧ warn st = w'.
Proof.
  revert cands w. induction fuel as [|fuel IH]; intros cands w Hn H; simpl in H; [done|].
  destruct (scan 0 sortedBindings (passStart cands w)) as [st| |] eqn:Hscan; try done.
  destruct (foundConflict st) eqn:Hf.
  - apply IH in H; [done|].
    destruct (scan_inv _ _ _ _ Hscan (passStart_topInv _ _) (passStart_cleanInv _ _))
      as (_ & _ & Hlen). simpl in Hlen. congruence.
  - injection H as <- <-. by exists cands, w, st.
Qed.

Lemma resolveConflicts_distinct fuel cands w cands' w' names :
  length cands = length sortedBindings →
  resolveConflicts fuel cands w = Some (Ok (cands', w')) →
  firstNames cands' = Ok names →
  NoDup names ∧ length names = length sortedBindings.
Proof.
  intros Hn Hrun Hnames.
  destruct (resolveConflicts_last_pass _ _ _ _ _ Hn Hrun)
    as (cands0 & w0 & st & Hn0 & Hscan & Hclean & <- & _).
  destruct (clean_pass_distinct _ _ _ Hn0 Hscan Hclean) as (Hlen & Hdist).
  pose proof (firstNames_lookup _ _ Hnames) as Hlook.
  pose proof (firstNames_length _ _ Hnames) as Hlen'.
  split; [|congruence].
  apply NoDup_alt. intros i j x Hi Hj.
  assert (i < length sortedBindings)%nat as Hi'.
  { apply lookup_lt_Some in Hi. lia. }
  destruct (Hdist i Hi') as (name & rest & Hci & Huniq).
  rewrite Hlook, Hci in Hi. simpl in Hi. injection Hi as ->.
  rewrite Hlook in Hj.
  destruct (nameCandidates st !! j) as [[|y resty]|] eqn:Hcj; simpl in Hj; try done.
  injection Hj as ->. symmetry. by eapply Huniq.
Qed.

(** *** Priorities *)

Lemma outranksPeers_spec c cands j name restC restJ :
  outranksPeers c cands = true →
  j ≠ c →
  cands !! c = Some (name :: restC) →
  cands !! j = Some (name :: restJ) →
  ∃ prioC prioJ,
    namePrios !! c = Some prioC ∧ namePrios !! j = Some prioJ ∧ prioC < prioJ.
Proof.
  intros Hall Hne Hc Hj. unfold outranksPeers in Hall.
  rewrite forallb_forall in Hall.
  specialize (Hall j). rewrite in_seq in Hall.
  apply lookup_lt_Some in Hj as Hlt.
  specialize (Hall ltac:(lia)).
  unfold collide in Hall. rewrite Hc, Hj, String.eqb_refl in Hall.
  destruct (Nat.eqb_spec j c); [done|]. simpl in Hall.
  destruct (namePrios !! c) as [pc|]; [|done].
  destruct (namePrios !! j) as [pj|]; [|done].
  exists pc, pj. split_and!; [done | done | by apply Z.ltb_lt].
Qed.

(** A binding that outranks its peers is left alone by the body of the
    loop. *)
Lemma visit_keeps c i bind st st' :
  topInv i st → visit i bind st = Ok st' →
  outranksPeers c (nameCandidates st) = true →
  nameCandidates st' !! c = nameCandidates st !! c.
Proof.
  intros Hinv H Hout. visit_cases H; simpl; try done.
  - destruct (Hinv _ _ Ht) as (Hlt' & restO & HO).
    destruct (decide (i = c)) as [->|Hne]; [|by rewrite list_lookup_insert_ne].
    destruct (outranksPeers_spec _ _ otherI _ _ _ Hout ltac:(lia) Hi HO)
      as (pc & pj & Hpc & Hpj & Hlt2).
    apply Z.ltb_lt in Hlt. simplify_eq. lia.
  - destruct (Hinv _ _ Ht) as (Hlt' & restO & HO).
    destruct (decide (otherI = c)) as [->|Hne]; [|by rewrite list_lookup_insert_ne].
    destruct (outranksPeers_spec _ _ i _ _ _ Hout ltac:(lia) HO Hi)
      as (pc & pj & Hpc & Hpj & Hlt2).
    apply Z.ltb_ge in Hlt. simplify_eq. lia.
  - destruct (Hinv _ _ Ht) as (Hlt' & restO & HO).
    destruct (decide (i = c)) as [->|Hne]; [|by rewrite list_lookup_insert_ne].
    destruct (outranksPeers_spec _ _ otherI _ _ _ Hout ltac:(lia) Hi HO)
      as (pc & pj & Hpc & Hpj & Hlt2).
    apply Z.ltb_ge in Hgt. simplify_eq. lia.
Qed.

Lemma scan_keeps c binds i st st' :
  topInv i st → scan i binds st = Ok st' →
  alwaysOutranks NoPrefix sortedBindings c (scanTrace i binds st) = true →
  nameCandidates st' !! c = nameCandidates st !! c.
Proof.
  revert i st. induction binds as [|bind binds IH]; intros i st Hinv Hscan Hall;
    simpl in *.
  - by injection Hscan as <-.
  - apply andb_true_iff in Hall as [Hhere Hall].
    destruct (visit i bind st) as [st1| |] eqn:Hv; try done.
    rewrite (IH _ _ (visit_topInv _ _ _ _ Hinv Hv) Hscan Hall).
    by eapply visit_keeps.
Qed.

Lemma alwaysOutranks_app c t1 t2 :
  alwaysOutranks NoPrefix sortedBindings c (t1 ++ t2)
  = alwaysOutranks NoPrefix sortedBindings c t1
    && alwaysOutranks NoPrefix sortedBindings c t2.
Proof. apply forallb_app. Qed.

Lemma resolveConflicts_keeps c fuel cands w cands' w' :
  resolveConflicts fuel cands w = Some (Ok (cands', w')) →
  alwaysOutranks NoPrefix sortedBindings c (resolveTrace fuel cands w) = true →
  cands' !! c = cands !! c.
Proof.
  revert cands w. induction fuel as [|fuel IH]; intros cands w H Hall; simpl in *; [done|].
  rewrite alwaysOutranks_app in Hall. apply andb_true_iff in Hall as [Hpass Hall].
  destruct (scan 0 sortedBindings (passStart cands w)) as [st| |] eqn:Hscan; try done.
  pose proof (scan_keeps c _ _ _ _ (passStart_topInv _ _) Hscan Hpass) as Hkeep.
  simpl in Hkeep.
  destruct (foundConflict st).
  - rewrite (IH _ _ H Hall). done.
  - by injection H as <- <-.
Qed.

Lemma scanTrace_inv binds i st j st' :
  topInv i st → (j, st') ∈ scanTrace i binds st →
  topInv j st' ∧ length (nameCandidates st') = length (nameCandidates st).
Proof.
  revert i st. induction binds as [|bind binds IH]; intros i st Hinv Hin; simpl in Hin.
  - apply list_elem_of_singleton in Hin. by injection Hin as -> ->.
  - apply elem_of_cons in Hin as [Hin|Hin]; [by injection Hin as -> ->|].
    destruct (visit i bind st) as [st1| |] eqn:Hv;
      try by apply elem_of_nil in Hin.
    destruct (IH _ _ (visit_topInv _ _ _ _ Hinv Hv) Hin) as [? Hlen].
    split; [done|]. rewrite Hlen. by eapply visit_length.
Qed.

Lemma resolveTrace_inv fuel cands w j st' :
  (j, st') ∈ resolveTrace fuel cands w →
  topInv j st' ∧ length (nameCandidates st') = length cands.
Proof.
  revert cands w. induction fuel as [|fuel IH]; intros cands w Hin; simpl in Hin.
  - by apply elem_of_nil in Hin.
  - apply elem_of_app in Hin as [Hin|Hin].
    + by apply scanTrace_inv in Hin; [|apply passStart_topInv].
    + destruct (scan 0 sortedBindings (passStart cands w)) as [st| |] eqn:Hscan;
        try by apply elem_of_nil in Hin.
      destruct (foundConflict st); [|by apply elem_of_nil in Hin].
      destruct (IH _ _ Hin) as [? Hlen]. split; [done|]. rewrite Hlen.
      by destruct (scan_inv _ _ _ _ Hscan (passStart_topInv _ _)
                     (passStart_cleanInv _ _)) as (_ & _ & ?).
Qed.

(** The trace is the sequence of the states of a pass: it ends with the
    state the pass returns. *)
Lemma scanTrace_last binds i st st' :
  scan i binds st = Ok st' →
  last (scanTrace i binds st) = Some ((i + length binds)%nat, st').
Proof.
  revert i st. induction binds as [|bind binds IH]; intros i st H; simpl in H.
  - injection H as <-. simpl. by rewrite Nat.add_0_r.
  - destruct (visit i bind st) as [st1| |] eqn:Hv; try done.
    change (scanTrace i (bind :: binds) st)
      with ((i, st) :: match visit i bind st with
                       | Ok st2 => scanTrace (S i) binds st2
                       | _ => []
                       end).
    rewrite Hv. specialize (IH _ _ H).
    replace (i + length (bind :: binds))%nat with (S i + length binds)%nat
      by (simpl; lia).
    destruct (scanTrace (S i) binds st1) eqn:Htr; [done|].
    by rewrite last_cons, IH.
Qed.

(** *** No index is out of range *)

Lemma visit_no_panic i bind st :
  topInv i st → (i < length sortedBindings)%nat →
  length (nameCandidates st) = length sortedBindings →
  visit i bind st ≠ Panic.
Proof.
  intros Hinv Hi Hlen. unfold visit.
  destruct (lookup_lt_is_Some_2 (nameCandidates st) i ltac:(lia)) as [[|topName rest] ->];
    [done|].
  destruct (topNames st !! topName) as [otherI|] eqn:Ht; [|done].
  destruct (Hinv _ _ Ht) as (Hlt & restO & ->).
  assert (length namePrios = length sortedBindings) as Hpl
    by (unfold namePrios; by rewrite length_map).
  destruct (lookup_lt_is_Some_2 namePrios otherI ltac:(lia)) as [po ->].
  destruct (lookup_lt_is_Some_2 namePrios i ltac:(lia)) as [pi ->].
  destruct (lookup_lt_is_Some_2 sortedBindings otherI ltac:(lia)) as [other ->].
  by destruct (po <? pi), (pi <? po).
Qed.

Lemma scan_no_panic binds i st :
  topInv i st → (i + length binds = length sortedBindings)%nat →
  length (nameCandidates st) = length sortedBindings →
  scan i binds st ≠ Panic.
Proof.
  revert i st. induction binds as [|bind binds IH]; intros i st Hinv Hi Hlen;
    simpl in *; [done|].
  destruct (visit i bind st) as [st1| |] eqn:Hv; [|done|].
  - apply IH; [by eapply visit_topInv | lia |].
    by rewrite (visit_length _ _ _ _ Hv).
  - by apply visit_no_panic in Hv; [| |lia|].
Qed.

Lemma resolveConflicts_no_panic fuel cands w :
  length cands = length sortedBindings →
  resolveConflicts fuel cands w ≠ Some Panic.
Proof.
  revert cands w. induction fuel as [|fuel IH]; intros cands w Hn; simpl; [done|].
  destruct (scan 0 sortedBindings (passStart cands w)) as [st| |] eqn:Hscan; [|done|].
  - destruct (foundConflict st); [|done]. apply IH.
    destruct (scan_inv _ _ _ _ Hscan (passStart_topInv _ _) (passStart_cleanInv _ _))
      as (_ & _ & Hlen). simpl in Hlen. congruence.
  - by apply scan_no_panic in Hscan; [|apply passStart_topInv| |].
Qed.

Lemma firstNames_nonempty cands :
  (∀ j, (j < length cands)%nat → ∃ name rest, cands !! j = Some (name :: rest)) →
  ∃ names, firstNames cands = Ok names.
Proof.
  induction cands as [|l cands IH]; intros Hall; simpl; [by eexists|].
  destruct (Hall 0%nat ltac:(simpl; lia)) as (name & rest & [= ->]).
  destruct IH as [names ->]; [|by eexists].
  intros j Hj. apply (Hall (S j)). simpl. lia.
Qed.

(** *** The loop ends *)

(** The body of the loop pops, renames, or leaves the candidates and the
    flag as they are. *)
Lemma visit_measure i bind st st' :
  topInv i st → visit i bind st = Ok st' →
  (conflictMeasure (nameCandidates st') < conflictMeasure (nameCandidates st))%nat ∨
  (nameCandidates st' = nameCandidates st ∧ foundConflict st' = foundConflict st).
Proof.
  intros Hinv H. visit_cases H; simpl.
  - left. by eapply conflictMeasure_pop.
  - left. by eapply conflictMeasure_pop.
  - left. destruct (Hinv _ _ Ht) as (Hlt' & restO & HO).
    by eapply conflictMeasure_rename.
  - by right.
Qed.

Lemma scan_measure binds i st st' :
  topInv i st → scan i binds st = Ok st' →
  (conflictMeasure (nameCandidates st') ≤ conflictMeasure (nameCandidates st))%nat ∧
  (foundConflict st' = true →
   foundConflict st = true ∨
   (conflictMeasure (nameCandidates st') < conflictMeasure (nameCandidates st))%nat).
Proof.
  revert i st. induction binds as [|bind binds IH]; intros i st Hinv H; simpl in H.
  - injection H as <-. auto.
  - destruct (visit i bind st) as [st1| |] eqn:Hv; try done.
    destruct (IH _ _ (visit_topInv _ _ _ _ Hinv Hv) H) as [Hle Hflag].
    destruct (visit_measure _ _ _ _ Hinv Hv) as [Hlt|[Hc Hf]].
    + split; [lia|]. intros _. right. lia.
    + rewrite Hc, Hf in *. done.
Qed.

(** More passes than the measure of the candidates are enough for the loop
    to end. *)
Lemma resolveConflicts_terminates fuel cands w :
  (conflictMeasure cands < fuel)%nat →
  ∃ r, resolveConflicts fuel cands w = Some r.
Proof.
  revert cands w. induction fuel as [|fuel IH]; intros cands w Hfuel; [lia|]. simpl.
  destruct (scan 0 sortedBindings (passStart cands w)) as [st| |] eqn:Hscan;
    [|by eexists..].
  destruct (foundConflict st) eqn:Hf; [|by eexists].
  apply IH.
  destruct (scan_measure _ _ _ _ (passStart_topInv _ _) Hscan) as [_ Hlt].
  destruct (Hlt Hf) as [?|?]; [done|]. simpl in *. lia.
Qed.

Lemma resolveConflicts_more_fuel fuel fuel' cands w r :
  resolveConflicts fuel cands w = Some r → (fuel ≤ fuel')%nat →
  resolveConflicts fuel' cands w = Some r.
Proof.
  revert fuel' cands w. induction fuel as [|fuel IH]; intros fuel' cands w H Hle;
    [done|].
  destruct fuel' as [|fuel']; [lia|]. simpl in *.
  destruct (scan 0 sortedBindings (passStart cands w)) as [st| |]; try done.
  destruct (foundConflict st); [|done]. apply IH; [done|lia].
Qed.

End BindingNamerProperties.

(** C2. When the block that names the bindings ends without an error, the
    names it has chosen are pairwise different, one for every binding. *)
Theorem final_names_distinct (NoPrefix : list string)
    (sortedBindings : list binder.BindingFunc) (CutNew : bool)
    (Renames : gmap string string)
    (RyeifiedNameCandidates : binder.BindingFunc → bool → bool → string → list string)
    (fuel : nat) (warnings : list string) (names warnings' : list string) :
  bindingNames NoPrefix sortedBindings CutNew Renames RyeifiedNameCandidates
    fuel warnings = Some (Ok (names, warnings')) →
  NoDup names ∧ length names = length sortedBindings.
Proof.
  unfold bindingNames. intros H.
  match type of H with context [resolveConflicts ?a ?b ?c ?d ?e] =>
    destruct (resolveConflicts a b c d e) as [[[cands w]| |]|] eqn:Hrun end;
    try done.
  destruct (firstNames cands) as [names0| |] eqn:Hnames; try done.
  injection H as <- <-.
  eapply resolveConflicts_distinct; [|done..].
  unfold initialCandidates. by rewrite length_map.
Qed.

Lemma final_names_distinct_witness :
  NoDup ["app-print"; "print"] ∧ length ["app-print"; "print"] = length printBindings.
Proof.
  apply (final_names_distinct printNoPrefix printBindings true ∅ printCandidates
           3 [] ["app-print"; "print"] []).
  vm_compute. reflexivity.
Defined.

(** The block ends in one of three ways: the passes allowed are used up, a
    binding has run out of candidates, or every binding has its name. *)
Lemma bindingNames_no_panic (NoPrefix : list string)
    (sortedBindings : list binder.BindingFunc) (CutNew : bool)
    (Renames : gmap string string)
    (RyeifiedNameCandidates : binder.BindingFunc → bool → bool → string → list string)
    (fuel : nat) (warnings : list string) :
  bindingNames NoPrefix sortedBindings CutNew Renames RyeifiedNameCandidates
    fuel warnings ≠ Some Panic.
Proof.
  unfold bindingNames.
  assert (length (initialCandidates NoPrefix sortedBindings CutNew Renames
                    RyeifiedNameCandidates) = length sortedBindings) as Hn
    by (unfold initialCandidates; by rewrite length_map).
  match goal with |- context [resolveConflicts ?a ?b ?c ?d ?e] =>
    destruct (resolveConflicts a b c d e) as [[[cands w]| |]|] eqn:Hrun end;
    try done.
  - destruct (resolveConflicts_last_pass _ _ _ _ _ _ _ Hn Hrun)
      as (cands0 & w0 & st & Hn0 & Hscan & Hclean & <- & _).
    destruct (clean_pass_distinct _ _ _ _ _ Hn0 Hscan Hclean) as (Hlen & Hdist).
    destruct (firstNames_nonempty (nameCandidates st)) as [names ->]; [|done].
    intros j Hj. destruct (Hdist j ltac:(lia)) as (name & rest & ? & _). eauto.
  - by apply resolveConflicts_no_panic in Hrun.
Qed.

(** The block returns: with more passes allowed than the measure of the
    initial candidates, it ends with the fatal error or with the names, and
    allowing more passes does not change what it returns. *)
Lemma bindingNames_terminates (NoPrefix : list string)
    (sortedBindings : list binder.BindingFunc) (CutNew : bool)
    (Renames : gmap string string)
    (RyeifiedNameCandidates : binder.BindingFunc → bool → bool → string → list string)
    (fuel : nat) (warnings : list string) :
  (conflictMeasure
     (initialCandidates NoPrefix sortedBindings CutNew Renames RyeifiedNameCandidates)
   < fuel)%nat →
  ∃ r,
    r ≠ Panic ∧
    ∀ fuel', (fuel ≤ fuel')%nat →
      bindingNames NoPrefix sortedBindings CutNew Renames RyeifiedNameCandidates
        fuel' warnings = Some r.
Proof.
  intros Hfuel.
  destruct (resolveConflicts_terminates NoPrefix sortedBindings fuel _ warnings Hfuel)
    as [r0 Hrun].
  pose proof (bindingNames_no_panic NoPrefix sortedBindings CutNew Renames
                RyeifiedNameCandidates fuel warnings) as Hnp.
  destruct (bindingNames NoPrefix sortedBindings CutNew Renames
              RyeifiedNameCandidates fuel warnings) as [r|] eqn:Hb.
  - exists r. split; [congruence|]. intros fuel' Hle.
    unfold bindingNames in *.
    rewrite (resolveConflicts_more_fuel _ _ _ _ _ _ _ Hrun Hle).
    by rewrite Hrun in Hb.
  - unfold bindingNames in Hb. rewrite Hrun in Hb.
    destruct r0 as [[cands w]| |]; try done.
    by destruct (firstNames cands).
Qed.

(** C3. A binding that, in every state the loop goes through, has a strictly
    lower priority number than every other binding whose top candidate is
    the same as its own, ends with the first of its candidates as its
    name. *)
Theorem outranking_binding_keeps_first_choice (NoPrefix : list string)
    (sortedBindings : list binder.BindingFunc) (CutNew : bool)
    (Renames : gmap string string)
    (RyeifiedNameCandidates : binder.BindingFunc → bool → bool → string → list string)
    (fuel : nat) (warnings : list string) (names warnings' : list string)
    (c : nat) :
  bindingNames NoPrefix sortedBindings CutNew Renames RyeifiedNameCandidates
    fuel warnings = Some (Ok (names, warnings')) →
  alwaysOutranks NoPrefix sortedBindings c
    (resolveTrace NoPrefix sortedBindings fuel
       (initialCandidates NoPrefix sortedBindings CutNew Renames RyeifiedNameCandidates)
       warnings) = true →
  names !! c =
  initialCandidates NoPrefix sortedBindings CutNew Renames RyeifiedNameCandidates !! c
    ≫= head.
Proof.
  unfold bindingNames. intros H Hall.
  match type of H with context [resolveConflicts ?a ?b ?c ?d ?e] =>
    destruct (resolveConflicts a b c d e) as [[[cands w]| |]|] eqn:Hrun end;
    try done.
  destruct (firstNames cands) as [names0| |] eqn:Hnames; try done.
  injection H as <- <-.
  rewrite (firstNames_lookup _ _ Hnames).
  by rewrite (resolveConflicts_keeps _ _ _ _ _ _ _ _ Hrun Hall).
Qed.

Lemma outranking_binding_keeps_first_choice_witness :
  ["app-print"; "print"] !! 1%nat =
  initialCandidates printNoPrefix printBindings true ∅ printCandidates !! 1%nat
    ≫= head.
Proof.
  apply (outranking_binding_keeps_first_choice printNoPrefix printBindings true ∅
           printCandidates 3 [] ["app-print"; "print"] [] 1).
  - vm_compute. reflexivity.
  - vm_compute. reflexivity.
Defined.

(** C7. In every state the loop goes through: when the top candidate of the
    binding visited is in [topNames] for a binding of the same priority,
    that binding is an earlier one with the same top candidate, and the
    body of the loop ends without an error, having left the candidates of
    the earlier binding as they were, put "-1" behind the top candidate of
    the binding visited, and added one warning that names the unique keys of
    both. *)
Theorem tie_renames_later_binding (NoPrefix : list string)
    (sortedBindings : list binder.BindingFunc)
    (fuel : nat) (cands : list (list string)) (warnings : list string)
    (i : nat) (st : NamerState) (topName : string) (rest : list string)
    (otherI : nat) :
  length cands = length sortedBindings →
  (i, st) ∈ resolveTrace NoPrefix sortedBindings fuel cands warnings →
  nameCandidates st !! i = Some (topName :: rest) →
  topNames st !! topName = Some otherI →
  namePrios NoPrefix sortedBindings !! otherI = namePrios NoPrefix sortedBindings !! i →
  ∃ bind other restOther st',
    sortedBindings !! i = Some bind ∧
    sortedBindings !! otherI = Some other ∧
    (otherI < i)%nat ∧
    nameCandidates st !! otherI = Some (topName :: restOther) ∧
    visit NoPrefix sortedBindings i bind st = Ok st' ∧
    nameCandidates st' = <[i := (topName +:+ "-1") :: rest]> (nameCandidates st) ∧
    nameCandidates st' !! otherI = Some (topName :: restOther) ∧
    nameCandidates st' !! i = Some ((topName +:+ "-1") :: rest) ∧
    warn st' = warn st ++
      ["unable to resolve naming conflict between " +:+ binder.UniqueName bind
       +:+ " and " +:+ binder.UniqueName other
       +:+ ", renaming " +:+ topName +:+ " to " +:+ (topName +:+ "-1")].
Proof.
  intros Hn Hin Hi Ht Hprio.
  destruct (resolveTrace_inv _ _ _ _ _ _ _ Hin) as [Hinv Hlen].
  destruct (Hinv _ _ Ht) as (Hlt & restOther & HO).
  assert (i < length sortedBindings)%nat as Hilt.
  { apply lookup_lt_Some in Hi. lia. }
  destruct (lookup_lt_is_Some_2 sortedBindings i Hilt) as [bind Hbind].
  destruct (lookup_lt_is_Some_2 sortedBindings otherI ltac:(lia)) as [other Hother].
  assert (is_Some (namePrios NoPrefix sortedBindings !! i)) as [prio Hp].
  { apply lookup_lt_is_Some_2. unfold namePrios. by rewrite length_map. }
  rewrite Hp in Hprio.
  exists bind, other, restOther,
    {| nameCandidates := <[i := (topName +:+ "-1") :: rest]> (nameCandidates st);
       topNames := <[topName +:+ "-1" := i]> (topNames st);
       foundConflict := true;
       warn := warn st ++ [conflictWarning bind other topName] |}.
  split_and!; try done.
  - unfold visit. rewrite Hi, Ht, Hprio, Hp, Z.ltb_irrefl, Hother. reflexivity.
  - simpl. rewrite list_lookup_insert_ne by lia. done.
  - simpl. apply list_lookup_insert_eq. lia.
Qed.

Lemma tie_renames_later_binding_witness :
  ∃ bind other restOther st',
    openBindings !! 1%nat = Some bind ∧
    openBindings !! 0%nat = Some other ∧
    (0 < 1)%nat ∧
    nameCandidates openSecondVisit !! 0%nat = Some ("open" :: restOther) ∧
    visit [] openBindings 1 bind openSecondVisit = Ok st' ∧
    nameCandidates st' =
      <[1%nat := ("open" +:+ "-1") :: ["b-open"]]> (nameCandidates openSecondVisit) ∧
    nameCandidates st' !! 0%nat = Some ("open" :: restOther) ∧
    nameCandidates st' !! 1%nat = Some (("open" +:+ "-1") :: ["b-open"]) ∧
    warn st' = warn openSecondVisit ++
      ["unable to resolve naming conflict between " +:+ binder.UniqueName bind
       +:+ " and " +:+ binder.UniqueName other
       +:+ ", renaming " +:+ "open" +:+ " to " +:+ ("open" +:+ "-1")].
Proof.
  apply (tie_renames_later_binding [] openBindings 2
           [["open"]; ["open"; "b-open"]] [] 1 openSecondVisit "open" ["b-open"] 0).
  - reflexivity.
  - apply (list_elem_of_lookup_2 _ 1). vm_compute. reflexivity.
  - reflexivity.
  - vm_compute. reflexivity.
  - reflexivity.
Defined.

(** ** Generic-Implementation Closure *)

Section ClosureProperties.

Variable GenerateGenericInterfaceImpl :
  Dependencies → ir.Interface.t → Dependencies * Result string.

Local Abbreviation scanImpls := (scanImpls GenerateGenericInterfaceImpl).
Local Abbreviation onePass := (onePass GenerateGenericInterfaceImpl).
Local Abbreviation closeImpls := (closeImpls GenerateGenericInterfaceImpl).

(** The generator succeeds for every required interface, removes no key, and
    the keys it adds stay in the finite set [universe]. *)
Variable universe : gset string.
Hypothesis generator_succeeds : ∀ d name iface,
  GenericInterfaceImpls d !! name = Some iface →
  ∃ d' ifaceImpl, GenerateGenericInterfaceImpl d iface = (d', Ok ifaceImpl).
Hypothesis generator_adds : ∀ d name iface d' r,
  GenericInterfaceImpls d !! name = Some iface →
  GenerateGenericInterfaceImpl d iface = (d', r) →
  dom (GenericInterfaceImpls d) ⊆ dom (GenericInterfaceImpls d').
Hypothesis generator_bounded : ∀ d name iface d' r,
  GenericInterfaceImpls d !! name = Some iface →
  dom (GenericInterfaceImpls d) ⊆ universe →
  GenerateGenericInterfaceImpl d iface = (d', r) →
  dom (GenericInterfaceImpls d') ⊆ universe.

Lemma sortedKeys_elem {V} (m : gmap string V) k : k ∈ sortedKeys m ↔ k ∈ dom m.
Proof.
  unfold sortedKeys. rewrite merge_sort_Permutation. apply elem_of_elements.
Qed.

(** A pass over a list of required keys ends without an error; after it
    every key of the list is implemented; and either nothing has changed or
    the flag is set and the set of implemented keys has grown. *)
Lemma scanImpls_ok names st :
  closureInv universe st →
  (∀ k, k ∈ names → k ∈ dom (GenericInterfaceImpls (closureDeps st))) →
  ∃ st', scanImpls names st = Ok st' ∧ closureInv universe st' ∧
    dom (GenericInterfaceImpls (closureDeps st))
      ⊆ dom (GenericInterfaceImpls (closureDeps st')) ∧
    dom (genericIfaceImpls st) ⊆ dom (genericIfaceImpls st') ∧
    (∀ k, k ∈ names → k ∈ dom (genericIfaceImpls st')) ∧
    (st' = st ∨
     (addedImpl st' = true ∧
      dom (genericIfaceImpls st) ⊂ dom (genericIfaceImpls st') ∧
      ∃ more, more ≠ [] ∧ generatedFor st' = generatedFor st ++ more)).
Proof.
  revert st. induction names as [|name names IH]; intros st Hinv Hnames; simpl.
  - exists st.
    split_and!; [done | done | done | done | intros k []%elem_of_nil | by left].
  - destruct (genericIfaceImpls st !! name) as [impl|] eqn:Himpl.
    + destruct (IH st Hinv) as (st' & Hrun & Hinv' & Hd & Hi & Hall & Hch).
      { intros k Hk. apply Hnames. by right. }
      exists st'. split_and!; try done.
      intros k [->|Hk]%elem_of_cons; [|by apply Hall].
      apply Hi. by eapply elem_of_dom_2.
    + assert (name ∈ dom (GenericInterfaceImpls (closureDeps st))) as Hreq.
      { apply Hnames. by left. }
      apply elem_of_dom in Hreq as [iface Hiface]. rewrite Hiface.
      destruct (generator_succeeds _ _ _ Hiface) as (d' & ifaceImpl & Hgen).
      rewrite Hgen.
      destruct Hinv as (Hsub & Hbound & Hnd & Hlog).
      pose proof (generator_adds _ _ _ _ _ Hiface Hgen) as Hgrow.
      pose proof (generator_bounded _ _ _ _ _ Hiface Hbound Hgen) as Hbound'.
      apply not_elem_of_dom_2 in Himpl as Hfresh.
      match goal with |- context [scanImpls names ?s] => set (st1 := s) end.
      assert (dom (genericIfaceImpls st1) = {[name]} ∪ dom (genericIfaceImpls st))
        as Hdom1 by apply dom_insert_L.
      assert (name ∈ dom (GenericInterfaceImpls d')) as Hname'.
      { apply Hgrow. by eapply elem_of_dom_2. }
      destruct (IH st1) as (st' & Hrun & Hinv' & Hd & Hi & Hall & Hch).
      { split_and!.
        - rewrite Hdom1. simpl. intros k [->%elem_of_singleton|Hk]%elem_of_union;
            [done|]. by apply Hgrow, Hsub.
        - done.
        - simpl. apply NoDup_app. split_and!; [done | | apply NoDup_singleton].
          intros k Hk ->%list_elem_of_singleton. by apply Hfresh, Hlog.
        - intros k. rewrite Hdom1. simpl.
          rewrite elem_of_app, list_elem_of_singleton, elem_of_union,
            elem_of_singleton, Hlog. tauto. }
      { intros k Hk. simpl. apply Hgrow, Hnames. by right. }
      assert (dom (genericIfaceImpls st) ⊂ dom (genericIfaceImpls st')) as Hstrict.
      { split.
        - intros k Hk. apply Hi. rewrite Hdom1. by apply elem_of_union_r.
        - intros Hback. apply Hfresh, Hback, Hi. rewrite Hdom1.
          by apply elem_of_union_l, elem_of_singleton. }
      exists st'. split_and!; try done.
      * by etrans.
      * by apply Hstrict.
      * intros k [->|Hk]%elem_of_cons; [|by apply Hall].
        apply Hi. rewrite Hdom1. by apply elem_of_union_l, elem_of_singleton.
      * right. split_and!; [|done|].
        -- destruct Hch as [->|[? _]]; done.
        -- destruct Hch as [->|(_ & _ & more & _ & ->)]; simpl.
           ++ by exists [name].
           ++ exists (name :: more). split; [done|]. by rewrite <- app_assoc.
Qed.

(** A pass over keys that are all implemented changes nothing. *)
Lemma scanImpls_skip names st :
  (∀ k, k ∈ names → k ∈ dom (genericIfaceImpls st)) →
  scanImpls names st = Ok st.
Proof.
  induction names as [|name names IH]; intros Hall; simpl; [done|].
  assert (name ∈ dom (genericIfaceImpls st)) as [impl Himpl]%elem_of_dom
    by (apply Hall; by left).
  rewrite Himpl. apply IH. intros k Hk. apply Hall. by right.
Qed.

Lemma passReset_inv st : closureInv universe st → closureInv universe (passReset st).
Proof. done. Qed.

(** One pass of the loop. When it has added nothing, the state is the one at
    the top of the pass and every required key is implemented. *)
Lemma onePass_ok st :
  closureInv universe st →
  ∃ st', onePass st = Ok st' ∧ closureInv universe st' ∧
    dom (GenericInterfaceImpls (closureDeps st))
      ⊆ dom (GenericInterfaceImpls (closureDeps st')) ∧
    ((addedImpl st' = false ∧ st' = passReset st ∧
      dom (genericIfaceImpls st') = dom (GenericInterfaceImpls (closureDeps st')))
     ∨
     (addedImpl st' = true ∧
      dom (genericIfaceImpls st) ⊂ dom (genericIfaceImpls st') ∧
      ∃ more, more ≠ [] ∧ generatedFor st' = generatedFor st ++ more)).
Proof.
  intros Hinv. unfold onePass.
  destruct (scanImpls_ok (sortedKeys (GenericInterfaceImpls (closureDeps st)))
              (passReset st) (passReset_inv _ Hinv))
    as (st' & Hrun & Hinv' & Hd & Hi & Hall & Hch).
  { intros k. apply sortedKeys_elem. }
  exists st'. split_and!; try done.
  destruct Hch as [->|?]; [left|by right].
  split_and!; try done.
  apply (anti_symm (⊆)); [apply Hinv|].
  intros k Hk. apply Hall. by apply sortedKeys_elem.
Qed.

(** The loop ends: one pass more than there are keys left to implement is
    enough. *)
Lemma closeImpls_ok fuel st :
  closureInv universe st →
  (size (universe ∖ dom (genericIfaceImpls st)) < fuel)%nat →
  ∃ st', closeImpls fuel st = Some (Ok st') ∧ closureInv universe st' ∧
    addedImpl st' = false ∧ onePass st' = Ok st' ∧
    dom (genericIfaceImpls st') = dom (GenericInterfaceImpls (closureDeps st')) ∧
    dom (GenericInterfaceImpls (closureDeps st))
      ⊆ dom (GenericInterfaceImpls (closureDeps st')).
Proof.
  revert st. induction fuel as [|fuel IH]; intros st Hinv Hfuel; [lia|]. simpl.
  destruct (onePass_ok st Hinv) as (st1 & Hpass & Hinv1 & Hd & Hch).
  rewrite Hpass.
  destruct Hch as [(Hadded & Hst1 & Hdom)|(Hadded & Hstrict & _)]; rewrite Hadded.
  - exists st1. split_and!; try done.
    unfold onePass. rewrite scanImpls_skip; [by rewrite Hst1|].
    intros k Hk%sortedKeys_elem. simpl. by rewrite Hdom.
  - destruct (IH st1 Hinv1) as (st' & Hrun & ? & ? & ? & ? & Hd').
    + assert (universe ∖ dom (genericIfaceImpls st1)
              ⊂ universe ∖ dom (genericIfaceImpls st)) as Hless.
      { destruct Hstrict as [Hsub Hne]. split.
        - intros k [? ?]%elem_of_difference. apply elem_of_difference. auto.
        - intros Hback. apply Hne. intros k Hk.
          destruct (decide (k ∈ dom (genericIfaceImpls st))) as [|Hnot]; [done|].
          exfalso.
          assert (k ∈ universe) as Hu.
          { destruct Hinv1 as (H1 & H2 & _). by apply H2, H1. }
          assert (k ∈ universe ∖ dom (genericIfaceImpls st1)) as Hk'.
          { apply Hback, elem_of_difference. auto. }
          apply elem_of_difference in Hk' as [_ ?]. done. }
      apply subset_size in Hless. lia.
    + exists st'. split_and!; try done. by etrans.
Qed.

(** The flag [addedImpl] is set in a pass exactly when the pass has called
    the generator. *)
Lemma scanImpls_flag names st st' :
  scanImpls names st = Ok st' →
  (addedImpl st' = addedImpl st ∧ generatedFor st' = generatedFor st) ∨
  (addedImpl st' = true ∧
   ∃ more, more ≠ [] ∧ generatedFor st' = generatedFor st ++ more).
Proof.
  revert st. induction names as [|name names IH]; intros st H; simpl in H.
  - injection H as <-. by left.
  - destruct (genericIfaceImpls st !! name); [by apply IH|].
    destruct (GenericInterfaceImpls (closureDeps st) !! name) as [iface|]; [|done].
    destruct (GenerateGenericInterfaceImpl (closureDeps st) iface) as [d' [impl| |]];
      try done.
    right. apply IH in H as [[-> ->]|[-> (more & _ & ->)]]; simpl.
    + split; [done|]. by exists [name].
    + split; [done|]. exists (name :: more). split; [done|]. by rewrite <- app_assoc.
Qed.

Lemma onePass_flag st st' :
  onePass st = Ok st' →
  addedImpl st' = false ↔ generatedFor st' = generatedFor st.
Proof.
  intros [[Hf Hg]|[Hf (more & Hne & Hg)]]%scanImpls_flag; simpl in *.
  - done.
  - rewrite Hf, Hg. split; [done|]. intros Heq. exfalso. apply Hne.
    apply (app_inv_head (generatedFor st)). by rewrite app_nil_r.
Qed.

End ClosureProperties.

(** C5. When the generator succeeds for every required interface, removes no
    key, and stays within a finite set of keys, the loop ends after at most
    one pass more than there are keys in that set; the keys that have an
    implementation at the end are the required keys at the end, the ones
    required at the start among them; the generator has been called once for
    each of them; and a further pass would change nothing. The loop ends
    with a pass exactly when that pass has called the generator for no
    key. *)
Theorem closure_terminates_and_covers
    (GenerateGenericInterfaceImpl :
       Dependencies → ir.Interface.t → Dependencies * Result string)
    (universe : gset string) (deps0 : Dependencies) :
  (∀ d name iface,
     GenericInterfaceImpls d !! name = Some iface →
     ∃ d' ifaceImpl, GenerateGenericInterfaceImpl d iface = (d', Ok ifaceImpl)) →
  (∀ d name iface d' r,
     GenericInterfaceImpls d !! name = Some iface →
     GenerateGenericInterfaceImpl d iface = (d', r) →
     dom (GenericInterfaceImpls d) ⊆ dom (GenericInterfaceImpls d')) →
  (∀ d name iface d' r,
     GenericInterfaceImpls d !! name = Some iface →
     dom (GenericInterfaceImpls d) ⊆ universe →
     GenerateGenericInterfaceImpl d iface = (d', r) →
     dom (GenericInterfaceImpls d') ⊆ universe) →
  dom (GenericInterfaceImpls deps0) ⊆ universe →
  (∃ st,
     closeImpls GenerateGenericInterfaceImpl (S (size universe)) (closureStart deps0)
       = Some (Ok st) ∧
     dom (genericIfaceImpls st) = dom (GenericInterfaceImpls (closureDeps st)) ∧
     dom (GenericInterfaceImpls deps0) ⊆ dom (genericIfaceImpls st) ∧
     NoDup (generatedFor st) ∧
     (∀ k, k ∈ generatedFor st ↔ k ∈ dom (genericIfaceImpls st)) ∧
     onePass GenerateGenericInterfaceImpl st = Ok st) ∧
  (∀ fuel st st',
     onePass GenerateGenericInterfaceImpl st = Ok st' →
     (generatedFor st' = generatedFor st →
      closeImpls GenerateGenericInterfaceImpl (S fuel) st = Some (Ok st')) ∧
     (generatedFor st' ≠ generatedFor st →
      closeImpls GenerateGenericInterfaceImpl (S fuel) st
      = closeImpls GenerateGenericInterfaceImpl fuel st')).
Proof.
  intros Hok Hadds Hbound Hstart. split.
  - destruct (closeImpls_ok GenerateGenericInterfaceImpl universe Hok Hadds Hbound
                (S (size universe)) (closureStart deps0))
      as (st & Hrun & (_ & _ & Hnd & Hlog) & _ & Hfix & Hdom & Hgrow).
    + split_and!; simpl; [by rewrite dom_empty_L | done | apply NoDup_nil_2 |].
      intros k. rewrite dom_empty_L, elem_of_nil. split; [done|].
      by intros ?%elem_of_empty.
    + simpl. rewrite dom_empty_L, difference_empty_L. lia.
    + exists st. split_and!; try done. by rewrite Hdom.
  - intros fuel st st' Hpass. simpl. rewrite Hpass.
    pose proof (onePass_flag _ _ _ Hpass) as Hflag.
    split; intros Hg.
    + by rewrite (proj2 Hflag Hg).
    + destruct (addedImpl st'); [done|]. exfalso. by apply Hg, Hflag.
Qed.

Lemma closure_terminates_and_covers_witness :
  ∃ st,
    closeImpls mutualGenerator (S (size ({["A"; "B"]} : gset string)))
      (closureStart depsA) = Some (Ok st) ∧
    dom (genericIfaceImpls st) = dom (GenericInterfaceImpls (closureDeps st)) ∧
    dom (GenericInterfaceImpls depsA) ⊆ dom (genericIfaceImpls st) ∧
    NoDup (generatedFor st) ∧
    (∀ k, k ∈ generatedFor st ↔ k ∈ dom (genericIfaceImpls st)) ∧
    onePass mutualGenerator st = Ok st.
Proof.
  apply (closure_terminates_and_covers mutualGenerator {["A"; "B"]} depsA).
  - intros d name iface _. eexists _, _. reflexivity.
  - intros d name iface d' r _ [= <- _]. simpl. rewrite dom_insert_L.
    apply union_subseteq_r.
  - intros d name iface d' r _ Hd [= <- _]. simpl. rewrite dom_insert_L.
    apply union_subseteq. split; [|done].
    destruct (String.eqb _ "A"); simpl; apply singleton_subseteq_l.
    + apply elem_of_union_r. by apply elem_of_singleton.
    + apply elem_of_union_l. by apply elem_of_singleton.
  - unfold depsA. simpl. rewrite dom_singleton_L. apply union_subseteq_l.
Defined.

Example closure_mutual_ex :
  (λ r, match r with
        | Some (Ok st) => Some (map_to_list (genericIfaceImpls st), generatedFor st)
        | _ => None
        end) (closeImpls mutualGenerator 3 (closureStart depsA))
  = Some ([("A", "func context to A"); ("B", "func context to B")], ["A"; "B"]).
Proof. vm_compute. reflexivity. Qed.

(** ** Binding Pipeline *)

Section GenBindingsProperties.

Variable IdentIsInternal : ir.Ident.t → bool.
Variable ModulePathIsInternal : string → bool.
Variable Func_String : ir.Func.t → string.
Variable GenerateBinding :
  Dependencies → ir.Func.t → Dependencies * Result binder.BindingFunc.
Variable GenerateGetterOrSetter :
  Dependencies → ir.StructField.t → ir.Ident.t → bool →
  Dependencies * Result binder.BindingFunc.
Variable GenerateValue :
  Dependencies → ir.Value.t → Dependencies * Result binder.BindingFunc.
Variable GenerateNewStruct :
  Dependencies → ir.Ident.t → Dependencies * Result binder.BindingFunc.
Variable targetPkgs : list string.

Local Abbreviation synthesize :=
  (synthesize GenerateBinding GenerateGetterOrSetter GenerateValue GenerateNewStruct).
Local Abbreviation bindSymbol :=
  (bindSymbol Func_String GenerateBinding GenerateGetterOrSetter GenerateValue
     GenerateNewStruct).
Local Abbreviation covered :=
  (covered GenerateBinding GenerateGetterOrSetter GenerateValue GenerateNewStruct).
Local Abbreviation eligibleSymbols :=
  (eligibleSymbols IdentIsInternal ModulePathIsInternal targetPkgs).
Local Abbreviation bindSymbols :=
  (bindSymbols IdentIsInternal ModulePathIsInternal Func_String GenerateBinding
     GenerateGetterOrSetter GenerateValue GenerateNewStruct targetPkgs).

Lemma forEach_app {A} (body : A → GenState → Result GenState) l1 l2 st :
  forEach body (l1 ++ l2) st = andThen (forEach body l1 st) (forEach body l2).
Proof.
  revert st. induction l1 as [|x l1 IH]; intros st; simpl; [done|].
  destruct (body x st); simpl; auto.
Qed.

Lemma forEach_ext {A} (body1 body2 : A → GenState → Result GenState) l st :
  (∀ x st, body1 x st = body2 x st) →
  forEach body1 l st = forEach body2 l st.
Proof.
  intros Hext. revert st. induction l as [|x l IH]; intros st; simpl; [done|].
  rewrite Hext. destruct (body2 x st); auto.
Qed.

Lemma forEach_flat_map {A B} (f : A → list B)
    (body : B → GenState → Result GenState) l st :
  forEach body (flat_map f l) st = forEach (λ x st, forEach body (f x) st) l st.
Proof.
  revert st. induction l as [|x l IH]; intros st; simpl; [done|].
  rewrite forEach_app. destruct (forEach body (f x) st); simpl; auto.
Qed.

Lemma forEach_map {A B} (g : A → B) (body : B → GenState → Result GenState) l st :
  forEach body (map g l) st = forEach (λ x st, body (g x) st) l st.
Proof.
  revert st. induction l as [|x l IH]; intros st; simpl; [done|].
  destruct (body (g x) st); auto.
Qed.

Lemma andThen_ext {A B} (r1 r2 : Result A) (k1 k2 : A → Result B) :
  r1 = r2 → (∀ a, k1 a = k2 a) → andThen r1 k1 = andThen r2 k2.
Proof. intros -> Hk. destruct r2; simpl; auto. Qed.

(** The five loops make, in this order, the generator calls of
    [eligibleSymbols]. *)
Lemma bindSymbols_flat IR :
  bindSymbols IR =
  forEach bindSymbol (eligibleSymbols IR)
    {| bindings := []; resErr := []; deps := NewDependencies |}.
Proof.
  unfold bindSymbols, eligibleSymbols.
  rewrite forEach_app. apply andThen_ext.
  { unfold bindInterfaces. rewrite forEach_flat_map. apply forEach_ext.
    intros [k iface] st. destruct (skipIdent _ _ _); [done|].
    rewrite forEach_map. by apply forEach_ext. }
  intros st1. rewrite forEach_app. apply andThen_ext.
  { unfold bindFuncs. rewrite forEach_flat_map. apply forEach_ext.
    intros [k fn] st. destruct (skipFunc _ _ _ _); [done|]. simpl.
    unfold bindSymbol. simpl. by destruct (collect _ _ _). }
  intros st2. rewrite forEach_app. apply andThen_ext.
  { unfold bindAccessors. rewrite forEach_flat_map. apply forEach_ext.
    intros [k struc] st. destruct (skipIdent _ _ _); [done|].
    rewrite forEach_flat_map. by apply forEach_ext. }
  intros st3. rewrite forEach_app. apply andThen_ext.
  { unfold bindValues. rewrite forEach_flat_map. apply forEach_ext.
    intros [k value] st. destruct (skipIdent _ _ _); [done|]. simpl.
    unfold bindSymbol. simpl. by destruct (collect _ _ _). }
  intros st4.
  unfold bindConstructors. rewrite forEach_flat_map. apply forEach_ext.
  intros [k struc] st. destruct (skipIdent _ _ _); [done|]. simpl.
  unfold bindSymbol. simpl. by destruct (collectNew _ _ _).
Qed.

Lemma covered_more sym bs more : covered sym bs → covered sym (bs ++ more).
Proof.
  intros (d & d' & bind & Hsyn & [Hin|(Hc & b & Hb & Hname)]);
    exists d, d', bind; (split; [done|]).
  - left. apply elem_of_app. by left.
  - right. split; [done|]. exists b. split; [|done]. apply elem_of_app. by left.
Qed.

(** A generator call that succeeds: no error is added, the bindings grow at
    the end, and the symbol is covered. *)
Lemma bindSymbol_ok sym st d' bind :
  synthesize (deps st) sym = (d', Ok bind) →
  ∃ st', bindSymbol sym st = Ok st' ∧ resErr st' = resErr st ∧
    (∃ more, bindings st' = bindings st ++ more) ∧
    covered sym (bindings st').
Proof.
  intros Hsyn. unfold bindSymbol. rewrite Hsyn.
  destruct (isConstructor sym) eqn:Hc; simpl.
  - destruct (existsb _ (bindings st)) eqn:Hex.
    + eexists. split_and!; [done | done | by exists []; rewrite app_nil_r |].
      apply existsb_exists in Hex as (b & Hb%list_elem_of_In & Heq%String.eqb_eq).
      exists (deps st), d', bind. split; [done|]. right. split; [done|]. by exists b.
    + eexists. split_and!; [done | done | by exists [bind] |].
      exists (deps st), d', bind. split; [done|]. left.
      apply elem_of_app. right. by apply list_elem_of_singleton.
  - eexists. split_and!; [done | done | by exists [bind] |].
    exists (deps st), d', bind. split; [done|]. left.
    apply elem_of_app. right. by apply list_elem_of_singleton.
Qed.

(** A generator call that fails: its error is added with the tag of the
    symbol, and the loop goes on. *)
Lemma bindSymbol_err sym st d' e :
  synthesize (deps st) sym = (d', Err e) →
  bindSymbol sym st =
  Ok {| bindings := bindings st;
        resErr := resErr st ++ [symbolTag Func_String sym +:+ ": " +:+ e];
        deps := d' |}.
Proof.
  intros Hsyn. unfold bindSymbol. rewrite Hsyn. by destruct (isConstructor sym).
Qed.

Lemma forEach_all_ok syms st :
  (∀ d sym, sym ∈ syms → ∃ d' bind, synthesize d sym = (d', Ok bind)) →
  ∃ st', forEach bindSymbol syms st = Ok st' ∧ resErr st' = resErr st ∧
    (∃ more, bindings st' = bindings st ++ more) ∧
    ∀ sym, sym ∈ syms → covered sym (bindings st').
Proof.
  revert st. induction syms as [|sym syms IH]; intros st Hok; simpl.
  - exists st. split_and!; [done | done | by exists []; rewrite app_nil_r |].
    by intros ? ?%elem_of_nil.
  - destruct (Hok (deps st) sym) as (d' & bind & Hsyn); [by left|].
    destruct (bindSymbol_ok _ _ _ _ Hsyn) as (st1 & -> & Herr1 & [m1 Hb1] & Hcov1).
    destruct (IH st1) as (st' & Hrun & Herr & [m2 Hb2] & Hcov).
    { intros d s Hs. apply Hok. by right. }
    exists st'. split_and!; [done | congruence | |].
    + exists (m1 ++ m2). by rewrite Hb2, Hb1, app_assoc.
    + intros s [->|Hs]%elem_of_cons; [|by apply Hcov].
      rewrite Hb2. by apply covered_more.
Qed.

(** C6. When the generator fails for one of the symbols it is called for and
    succeeds for all the others, the loops run to their end: the errors
    returned are the one error of that symbol, under its tag, and every
    other symbol has its binding in the result (for a struct constructor
    whose unique name was there already, the binding of that name). *)
Theorem one_failure_one_diagnostic (IR : ir.IR) (failing : Symbol)
    (before after : list Symbol) :
  eligibleSymbols IR = before ++ failing :: after →
  (∀ d sym, sym ∈ before ++ after →
     ∃ d' bind, synthesize d sym = (d', Ok bind)) →
  (∀ d, ∃ d' e, synthesize d failing = (d', Err e)) →
  ∃ st d d' e,
    bindSymbols IR = Ok st ∧
    synthesize d failing = (d', Err e) ∧
    resErr st = [symbolTag Func_String failing +:+ ": " +:+ e] ∧
    ∀ sym, sym ∈ before ++ after → covered sym (bindings st).
Proof.
  intros Hsyms Hok Hfail.
  rewrite bindSymbols_flat, Hsyms, forEach_app.
  destruct (forEach_all_ok before
              {| bindings := []; resErr := []; deps := NewDependencies |})
    as (st1 & -> & Herr1 & [m1 Hb1] & Hcov1).
  { intros d sym Hs. apply Hok, elem_of_app. by left. }
  simpl andThen. simpl forEach.
  destruct (Hfail (deps st1)) as (d' & e & Hsyn).
  rewrite (bindSymbol_err _ _ _ _ Hsyn).
  match goal with |- context [forEach _ after ?s] =>
    destruct (forEach_all_ok after s) as (st2 & -> & Herr2 & [m2 Hb2] & Hcov2) end.
  { intros d sym Hs. apply Hok, elem_of_app. by right. }
  exists st2, (deps st1), d', e. split_and!; [done | done | |].
  - rewrite Herr2. simpl. by rewrite Herr1.
  - intros sym [Hs|Hs]%elem_of_app; [|by apply Hcov2].
    rewrite Hb2. simpl. by apply covered_more, Hcov1.
Qed.

End GenBindingsProperties.

Lemma one_failure_one_diagnostic_witness :
  ∃ st d d' e,
    bindSymbols (λ _, false) (λ _, false) demoFuncString demoGenerateBinding
      demoGenerateGetterOrSetter demoGenerateValue demoGenerateNewStruct
      ["example.com/m"] demoIR = Ok st ∧
    synthesize demoGenerateBinding demoGenerateGetterOrSetter demoGenerateValue
      demoGenerateNewStruct d (FreeFunc demoMethod) = (d', Err e) ∧
    resErr st = [symbolTag demoFuncString (FreeFunc demoMethod) +:+ ": " +:+ e] ∧
    ∀ sym,
      sym ∈ [FreeFunc demoFunc] ++
            [FieldAccessor demoStruct (ir.StructField.mk (demoIdent "X")) false;
             FieldAccessor demoStruct (ir.StructField.mk (demoIdent "X")) true;
             PackageValue demoValue; StructConstructor demoStruct] →
      covered demoGenerateBinding demoGenerateGetterOrSetter demoGenerateValue
        demoGenerateNewStruct sym (bindings st).
Proof.
  apply (one_failure_one_diagnostic (λ _, false) (λ _, false) demoFuncString
           demoGenerateBinding demoGenerateGetterOrSetter demoGenerateValue
           demoGenerateNewStruct ["example.com/m"] demoIR (FreeFunc demoMethod)).
  - vm_compute. reflexivity.
  - intros d sym Hsym. simpl in Hsym.
    repeat (apply elem_of_cons in Hsym as [->|Hsym];
            [eexists _, _; reflexivity|]).
    by apply elem_of_nil in Hsym.
  - intros d. eexists _, _. reflexivity.
Defined.

Example pipeline_demo_ex :
  (λ r, match r with
        | Ok st => Some (map binder.UniqueName (bindings st), resErr st)
        | _ => None
        end)
    (bindSymbols (λ _, false) (λ _, false) demoFuncString demoGenerateBinding
       demoGenerateGetterOrSetter demoGenerateValue demoGenerateNewStruct
       ["example.com/m"] demoIR)
  = Some (["F"; "T//X?"; "T//X!"; "V"; "NewT"], ["T.M: unsupported receiver"]).
Proof. vm_compute. reflexivity. Qed.
